(** * Text-to-audio tool (app.py): parameter mapping, voice selection and the
      generate handler, embedded in Rocq.

    The development follows app.py top to bottom:
    - [PyStr]: Python [str] values as lists of code points, with the string
      methods the program calls ([lower], [strip], [split], [endswith],
      [in], slicing);
    - [PyFloat]: Python [float] as IEEE binary64 (Rocq's primitive floats),
      integer true division and [round];
    - [pct_to_edge_rate], [volume_to_edge]: the two parameter mappers;
    - [filter_voice_list], [nice_label], [default_label]: the voice catalog;
    - [generate_handler]: the body of [if generate:], in a state-and-exception
      monad over the session state and the log of user-interface effects. *)

From Stdlib Require Import ZArith NArith Floats Ascii String Lia.
From stdpp Require Import gmap list.

Open Scope Z_scope.

(** ** Exceptions and results *)

(** The exceptions the modelled code can raise. [StopException] is what
    [st.stop()] raises to end the script run; [ServiceError] stands for any
    exception coming out of the synthesis call or of reading its output. *)
Inductive exn :=
| ValueError
| OverflowError
| ZeroDivisionError
| TypeError
| KeyError
| IndexError
| StopException
| ServiceError.

Inductive res (A : Type) :=
| Ok (a : A)
| Raise (e : exn).
Arguments Ok {A} a.
Arguments Raise {A} e.

Definition res_bind {A B} (r : res A) (k : A -> res B) : res B :=
  match r with
  | Ok a => k a
  | Raise e => Raise e
  end.

(** ** Python strings *)

Module PyStr.

(** A [str] is a sequence of Unicode code points. *)
Abbreviation str := (list N).

(** ASCII literals of the source. *)
Definition u (s : string) : str := map N_of_ascii (list_ascii_of_string s).

(** [str.lower()]. Upper-case ASCII letters go to their lower-case letter
    and every other code point is kept. Python also lowers letters outside
    ASCII, but the result is again outside ASCII, with two exceptions:
    U+212A becomes k, and U+0130 becomes i followed by U+0307. The program
    only compares lowered strings with female, neural, jenny and aria:
    none has a k, and the only i is followed by a, never by U+0307. So
    those comparisons decide as in Python on every string. *)
Definition lower_char (c : N) : N :=
  if ((65 <=? c) && (c <=? 90))%N then (c + 32)%N else c.

Definition lower (s : str) : str := map lower_char s.

(** [str.isspace] on one code point: the table of
    [_PyUnicode_IsWhitespace]. *)
Definition is_space (c : N) : bool :=
  (((9 <=? c) && (c <=? 13)) || ((28 <=? c) && (c <=? 32))
   || (c =? 133) || (c =? 160) || (c =? 5760)
   || ((8192 <=? c) && (c <=? 8202))
   || (c =? 8232) || (c =? 8233) || (c =? 8239) || (c =? 8287)
   || (c =? 12288))%N.

Fixpoint lstrip (s : str) : str :=
  match s with
  | [] => []
  | c :: s' => if is_space c then lstrip s' else s
  end.

Definition rstrip (s : str) : str := rev (lstrip (rev s)).

(** [s.strip()] *)
Definition strip (s : str) : str := rstrip (lstrip s).

(** [pre] is a prefix of [s]. *)
Fixpoint starts_with (s pre : str) : bool :=
  match pre, s with
  | [], _ => true
  | _ :: _, [] => false
  | p :: pre', c :: s' => (p =? c)%N && starts_with s' pre'
  end.

(** [s.endswith(suf)] *)
Definition ends_with (s suf : str) : bool := starts_with (rev s) (rev suf).

(** [pat in s] for strings: [pat] occurs in [s] as a contiguous block. *)
Fixpoint contains (pat s : str) : bool :=
  starts_with s pat ||
  match s with
  | [] => false
  | _ :: s' => contains pat s'
  end.

(** [s.split(sep)] for a one-character separator, as a non-empty list:
    the segment being read and the segments that follow. *)
Fixpoint split_on (sep : N) (s : str) : str * list str :=
  match s with
  | [] => ([], [])
  | c :: s' =>
      let '(seg, segs) := split_on sep s' in
      if (c =? sep)%N then ([], seg :: segs) else (c :: seg, segs)
  end.

Definition split (sep : N) (s : str) : list str :=
  let '(seg, segs) := split_on sep s in seg :: segs.

(** [s[:-n]] for a positive [n]: all but the last [n] characters. *)
Definition drop_last (n : nat) (s : str) : str := take (length s - n)%nat s.

(** Decimal digits of a natural number, most significant first. *)
Fixpoint uint_digits (d : Decimal.uint) : str :=
  match d with
  | Decimal.Nil => []
  | Decimal.D0 d' => 48%N :: uint_digits d'
  | Decimal.D1 d' => 49%N :: uint_digits d'
  | Decimal.D2 d' => 50%N :: uint_digits d'
  | Decimal.D3 d' => 51%N :: uint_digits d'
  | Decimal.D4 d' => 52%N :: uint_digits d'
  | Decimal.D5 d' => 53%N :: uint_digits d'
  | Decimal.D6 d' => 54%N :: uint_digits d'
  | Decimal.D7 d' => 55%N :: uint_digits d'
  | Decimal.D8 d' => 56%N :: uint_digits d'
  | Decimal.D9 d' => 57%N :: uint_digits d'
  end.

(** [f"{val:+d}"]: the sign, always written, then the decimal digits. *)
Definition format_plus_d (val : Z) : str :=
  (if val <? 0 then u "-" else u "+") ++ uint_digits (N.to_uint (Z.abs_N val)).

(** Reading back a signed percentage: the integer that a string of the
    shape sign, digits, percent sign denotes. *)
Fixpoint digits_value (acc : Z) (s : str) : option Z :=
  match s with
  | [] => None
  | c :: s' =>
      if (c =? 37)%N then
        match s' with [] => Some acc | _ => None end
      else if ((48 <=? c) && (c <=? 57))%N then
        digits_value (10 * acc + (Z.of_N c - 48)) s'
      else None
  end.

Definition signed_pct_value (s : str) : option Z :=
  match s with
  | 43%N :: (c :: _) as ds => if (c =? 37)%N then None else digits_value 0 ds
  | 45%N :: (c :: _) as ds =>
      if (c =? 37)%N then None else Z.opp <$> digits_value 0 ds
  | _ => None
  end.

End PyStr.
Import PyStr.

(** ** Python floats *)

Module PyFloat.

(** Nearest integer to [m * 2^e], ties to the even integer. *)
Definition round_half_even (m : positive) (e : Z) : Z :=
  if 0 <=? e then Zpos m * 2 ^ e
  else
    let d := 2 ^ (- e) in
    let q := Zpos m / d in
    let r := Zpos m mod d in
    match 2 * r ?= d with
    | Lt => q
    | Gt => q + 1
    | Eq => if Z.even q then q else q + 1
    end.

(** [round(x)] with one argument, then [int(...)]: the nearest integer,
    ties to even; infinities raise OverflowError and NaN raises
    ValueError. *)
Definition py_round (x : float) : res Z :=
  match Prim2SF x with
  | S754_zero _ => Ok 0
  | S754_finite s m e => Ok (cond_Zopp s (round_half_even m e))
  | S754_infinity _ => Raise OverflowError
  | S754_nan => Raise ValueError
  end.

(** [a / b] on two [int]s: the correctly rounded quotient as a float. *)
Definition int_truediv (a b : Z) : res float :=
  match a, b with
  | _, Z0 => Raise ZeroDivisionError
  | Z0, _ => Ok (if b <? 0 then (-0)%float else 0%float)
  | _, _ =>
      let '(q, e, l) := SFdiv_core_binary prec emax (Z.abs a) 0 (Z.abs b) 0 in
      match binary_round_aux prec emax (xorb (a <? 0) (b <? 0)) q e l with
      | S754_infinity _ => Raise OverflowError
      | r => Ok (SF2Prim r)
      end
  end.

End PyFloat.
Import PyFloat.

(** ** Parameter mapper (app.py, lines 90-100) *)

(** [max(lo, min(hi, val))] *)
Definition clamp (lo hi val : Z) : Z := Z.max lo (Z.min hi val).

(** [pct_to_edge_rate(pct)] *)
Definition pct_to_edge_rate (pct : Z) : res str :=
  res_bind (int_truediv (pct - 175) 75) (fun quot =>
  res_bind (py_round (quot * 50)%float) (fun val =>
  let val := clamp (-50) 50 val in
  Ok (format_plus_d val ++ u "%"))).

(** [volume_to_edge(vol)] *)
Definition volume_to_edge (vol : float) : res str :=
  res_bind (py_round ((vol - 1) * 50)%float) (fun val =>
  let val := clamp (-50) 0 val in
  Ok (format_plus_d val ++ u "%")).

(** ** Voice catalog (app.py, lines 107-123 and 153-179) *)

(** The values held by the fields the program reads from a voice entry:
    a string, or [None]. *)
Inductive pyval :=
| PNone
| PStr (s : str).

#[global] Instance pyval_eq_dec : EqDecision pyval.
Proof. solve_decision. Defined.

(** An entry of the voice list is a [dict] from field names to values. *)
Abbreviation voice := (gmap str pyval).

(** [v.get(k, d)] *)
Definition dict_get (v : voice) (k : str) (d : pyval) : pyval :=
  default d (v !! k).

(** Truth value of an object in a condition. *)
Definition truthy (x : pyval) : bool :=
  match x with
  | PNone => false
  | PStr s => negb (bool_decide (s = []))
  end.

(** [x or y] *)
Definition py_or (x y : pyval) : pyval := if truthy x then x else y.

(** [(v.get("Gender", "") or "").lower()]; the operand of [lower] is never
    [None], since [None or ""] is the empty string. *)
Definition gender_lower (v : voice) : str :=
  match py_or (dict_get v (u "Gender") (PStr [])) (PStr []) with
  | PStr s => lower s
  | PNone => []
  end.

(** The loop of [filter_voice_list]: entries are appended to [out] in the
    order they are visited. *)
Fixpoint primary_pass (voices : list voice) (prefer_lang : pyval)
    (prefer_female : bool) : list voice :=
  match voices with
  | [] => []
  | v :: rest =>
      let locale := dict_get v (u "Locale") (PStr []) in
      let gender := gender_lower v in
      if truthy prefer_lang && bool_decide (locale ≠ prefer_lang) then
        primary_pass rest prefer_lang prefer_female
      else if prefer_female && bool_decide (gender ≠ u "female") then
        primary_pass rest prefer_lang prefer_female
      else v :: primary_pass rest prefer_lang prefer_female
  end.

(** [[v for v in voices if v.get("Locale") == prefer_lang]] *)
Definition locale_pass (voices : list voice) (prefer_lang : pyval) : list voice :=
  filter (fun v => dict_get v (u "Locale") PNone = prefer_lang) voices.

(** [filter_voice_list(voices, prefer_lang, prefer_female)]; [not out] on a
    list tests for emptiness. *)
Definition filter_voice_list (voices : list voice) (prefer_lang : pyval)
    (prefer_female : bool) : list voice :=
  let out := primary_pass voices prefer_lang prefer_female in
  let out :=
    match out with
    | [] => if truthy prefer_lang then locale_pass voices prefer_lang else voices
    | _ :: _ => out
    end in
  let out :=
    match out with
    | [] => voices
    | _ :: _ => out
    end in
  out.

(** How an f-string renders a field value. *)
Definition py_format (x : pyval) : str :=
  match x with
  | PNone => u "None"
  | PStr s => s
  end.

(** The separator of the label: space, em dash (U+2014), space. *)
Definition dash_sep : str := [32%N; 8212%N; 32%N].

(** [nice_label(v)]; [sn.split("-")[-1]] is the last segment, and a
    [ShortName] holding [None] makes the [in] test raise TypeError. *)
Definition nice_label (v : voice) : res str :=
  let sn := dict_get v (u "ShortName") (PStr []) in
  let locale := dict_get v (u "Locale") (PStr []) in
  let gender := dict_get v (u "Gender") (PStr []) in
  match sn with
  | PNone => Raise TypeError
  | PStr sn =>
      let name_part :=
        if contains (u "-") sn then default [] (last (split 45%N sn)) else sn in
      let display :=
        if ends_with (lower name_part) (u "neural")
        then drop_last 6 name_part ++ u " (Neural)"
        else name_part in
      Ok (display ++ dash_sep ++ py_format locale ++ dash_sep ++ py_format gender)
  end.

(** A [dict] from labels to voices, in insertion order. *)
Abbreviation pydict := (list (str * voice)).

(** [d[k] = v]: an existing key keeps its place and takes the new value. *)
Fixpoint dict_set (d : pydict) (k : str) (v : voice) : pydict :=
  match d with
  | [] => [(k, v)]
  | (k', v') :: d' =>
      if decide (k' = k) then (k', v) :: d' else (k', v') :: dict_set d' k v
  end.

(** [d[k]] *)
Fixpoint dict_getitem (d : pydict) (k : str) : res voice :=
  match d with
  | [] => Raise KeyError
  | (k', v') :: d' => if decide (k' = k) then Ok v' else dict_getitem d' k
  end.

(** [d.keys()] *)
Definition dict_keys (d : pydict) : list str := d.*1.

(** [{nice_label(v): v for v in filtered}] *)
Fixpoint build_voice_map (filtered : list voice) (acc : pydict) : res pydict :=
  match filtered with
  | [] => Ok acc
  | v :: rest =>
      res_bind (nice_label v) (fun k => build_voice_map rest (dict_set acc k v))
  end.

(** The first key, in iteration order, whose lower-case form contains
    [pat]: one [for ... break] loop of the default selection. *)
Fixpoint first_containing (pat : str) (keys : list str) : option str :=
  match keys with
  | [] => None
  | key :: rest =>
      if contains pat (lower key) then Some key else first_containing pat rest
  end.

(** The selection of [default_label] (lines 167-179); indexing an empty
    key list raises IndexError. *)
Definition default_label (voice_map : pydict) : res str :=
  match first_containing (u "jenny") (dict_keys voice_map) with
  | Some key => Ok key
  | None =>
      match first_containing (u "aria") (dict_keys voice_map) with
      | Some key => Ok key
      | None =>
          match dict_keys voice_map with
          | key :: _ => Ok key
          | [] => Raise IndexError
          end
      end
  end.

(** ** The generate handler (app.py, lines 213-247) *)

(** What the synthesis call does, as far as the handler can tell: it raises,
    or it returns after writing the audio file. *)
Inductive synth_outcome :=
| SynthRaises
| SynthWrote (audio : list Byte.byte).

(** The external service, by request: text, voice, rate, volume. *)
Definition service := str -> pyval -> str -> str -> synth_outcome.

(** Effects visible outside the handler. [Synthesize] is the outbound call
    and records the busy flag at the time of the call. *)
Inductive event :=
| Warning (msg : str)
| Error (msg : str)
| Success (msg : str)
| Synthesize (text : str) (voice_short : pyval) (rate_str volume_str : str)
    (busy_now : bool)
| Audio (data : list Byte.byte) (format : str)
| DownloadButton (label : str) (data : list Byte.byte) (file_name mime : str).

(** [st.session_state.busy] and the effects so far, oldest first. *)
Record world := { busy : bool; effects : list event }.

Module Script.

(** The state of a script run: the world, and whether [st.stop()] has asked
    the runner to stop. While a stop is pending, every command that goes
    through the runner (an element such as [st.error], a read or a write of
    [st.session_state]) raises StopException before it does anything. *)
Record run_state := { the_world : world; stop_requested : bool }.

(** Computations over the run state that return or raise. *)
Definition M (A : Type) : Type := run_state -> res A * run_state.

Definition ret {A} (a : A) : M A := fun st => (Ok a, st).

Definition bind {A B} (m : M A) (k : A -> M B) : M B :=
  fun st =>
    match m st with
    | (Ok a, st') => k a st'
    | (Raise e, st') => (Raise e, st')
    end.

Definition lift {A} (r : res A) : M A := fun st => (r, st).

Definition raise {A} (e : exn) : M A := fun st => (Raise e, st).

(** [try: body finally: cleanup]: the cleanup runs on every exit of the
    body; an exception of the body is raised again after it, unless the
    cleanup raises itself. *)
Definition try_finally {A} (body : M A) (cleanup : M unit) : M A :=
  fun st =>
    match body st with
    | (r, st') =>
        match cleanup st' with
        | (Ok _, st'') => (r, st'')
        | (Raise e, st'') => (Raise e, st'')
        end
    end.

(** The check the runner makes when a command reaches it. *)
Definition yield_point : M unit :=
  fun st =>
    if stop_requested st then (Raise StopException, st) else (Ok tt, st).

(** An element command ([st.warning], [st.error], [st.audio], ...): the
    check, then the element is shown. *)
Definition emit (ev : event) : M unit :=
  bind yield_point (fun _ st =>
    (Ok tt,
     {| the_world := {| busy := busy (the_world st);
                        effects := effects (the_world st) ++ [ev] |};
        stop_requested := stop_requested st |})).

(** [st.session_state.busy = b]: the check, then the value is stored. *)
Definition set_busy (b : bool) : M unit :=
  bind yield_point (fun _ st =>
    (Ok tt,
     {| the_world := {| busy := b; effects := effects (the_world st) |};
        stop_requested := stop_requested st |})).

Definition request_stop : M unit :=
  fun st => (Ok tt, {| the_world := the_world st; stop_requested := true |}).

(** [st.stop()]: the stop is requested, and the check of the empty element
    that [st.stop] emits next raises StopException. The request stays
    pending for the rest of the run. *)
Definition st_stop {A} : M A :=
  bind request_stop (fun _ =>
  bind yield_point (fun _ => raise StopException)).

(** [run_async(synthesize_edge_tts(...))] followed by
    [out_path.read_bytes()]; neither goes through the runner. *)
Definition synthesize (svc : service) (text : str) (voice_short : pyval)
    (rate_str volume_str : str) : M (list Byte.byte) :=
  fun st =>
    let w := the_world st in
    let st' :=
      {| the_world :=
           {| busy := busy w;
              effects := effects w ++
                [Synthesize text voice_short rate_str volume_str (busy w)] |};
         stop_requested := stop_requested st |} in
    match svc text voice_short rate_str volume_str with
    | SynthRaises => (Raise ServiceError, st')
    | SynthWrote audio => (Ok audio, st')
    end.

End Script.
Import Script.

Notation "x <- m ;; k" := (bind m (fun x => k))
  (at level 90, m at level 80, right associativity).
Notation "m ;;; k" := (bind m (fun _ => k))
  (at level 90, right associativity).

(** The widget values the handler reads. *)
Record inputs := {
  text : str;
  voice_map : pydict;
  voice_choice : str;
  rate_slider : Z;
  volume : float;
  filename : str
}.

(** The body of [if generate:]. *)
Definition generate_block (svc : service) (i : inputs) : M unit :=
  (if bool_decide (strip (text i) = [])
   then emit (Warning (u "Please enter some text.")) ;;; st_stop
   else ret tt) ;;;
  set_busy true ;;;
  try_finally
    (v <- lift (dict_getitem (voice_map i) (voice_choice i)) ;;
     let voice_short := dict_get v (u "ShortName") PNone in
     rate_str <- lift (pct_to_edge_rate (rate_slider i)) ;;
     volume_str <- lift (volume_to_edge (volume i)) ;;
     audio_bytes <- synthesize svc (text i) voice_short rate_str volume_str ;;
     (if (length audio_bytes <? 2000)%nat
      then emit (Error (u "Generated audio is empty. Try a different voice."))
           ;;; st_stop
      else ret tt) ;;;
     emit (Success (u "Audio generated successfully")) ;;;
     emit (Audio audio_bytes (u "audio/mp3")) ;;;
     emit (DownloadButton (u "Download Audio") audio_bytes (filename i)
             (u "audio/mpeg")))
    (set_busy false).

(** One run of the block from the world [w]: a script run starts with no
    stop pending, and what is left afterwards is how the run ended and the
    world. *)
Definition generate_handler (svc : service) (i : inputs) (w : world)
    : res unit * world :=
  let '(r, st) :=
    generate_block svc i {| the_world := w; stop_requested := false |} in
  (r, the_world st).

(** Lines 213-247: the block runs only when the button was pressed. *)
Definition on_rerun (generate : bool) (svc : service) (i : inputs) (w : world)
    : res unit * world :=
  if generate then generate_handler svc i w else (Ok tt, w).
(** ** The voice selection of the script (app.py, lines 146-185) *)

(** [l.index(x)]: the position of the first element equal to [x];
    ValueError when there is none. *)
Fixpoint list_index (l : list str) (x : str) : res nat :=
  match l with
  | [] => Raise ValueError
  | y :: l' =>
      if decide (y = x) then Ok 0%nat
      else res_bind (list_index l' x) (fun n => Ok (S n))
  end.

(** Lines 147-151, 165, 168-179 and 184 in sequence, from the cached voice
    list and the two select boxes: the voice map, the default label and the
    index given to the voice select box. *)
Definition select_voices (voices : list voice) (prefer_lang prefer_gender : str)
    : res (pydict * str * nat) :=
  let filtered :=
    filter_voice_list voices
      (if decide (prefer_lang = u "Any") then PNone else PStr prefer_lang)
      (bool_decide (prefer_gender = u "Female")) in
  res_bind (build_voice_map filtered []) (fun voice_map =>
  res_bind (default_label voice_map) (fun default =>
  res_bind (list_index (dict_keys voice_map) default) (fun index =>
  Ok (voice_map, default, index)))).

(** ** The properties of the catalog, in the words of the specification *)

(** The entry's locale is [l]. *)
Definition has_locale (l : pyval) (v : voice) : Prop :=
  v !! u "Locale" = Some l.

(** The entry's gender is a string equal to female up to letter case. *)
Definition is_female (v : voice) : Prop :=
  match v !! u "Gender" with
  | Some (PStr g) => lower g = u "female"
  | _ => False
  end.

#[global] Instance has_locale_dec l v : Decision (has_locale l v).
Proof. unfold has_locale. apply _. Defined.

#[global] Instance is_female_dec v : Decision (is_female v).
Proof. unfold is_female. destruct (v !! u "Gender") as [[|g]|]; apply _. Defined.

(** A non-empty string was given as the preferred locale. *)
Definition locale_given (prefer_lang : pyval) : Prop := truthy prefer_lang = true.

(** The primary pass of the specification: the preferred locale when one is
    given, and a female voice when one is asked for. *)
Definition primary_match (prefer_lang : pyval) (prefer_female : bool)
    (v : voice) : Prop :=
  (locale_given prefer_lang -> has_locale prefer_lang v) /\
  (prefer_female = true -> is_female v).

#[global] Instance primary_match_dec pl pf v : Decision (primary_match pl pf v).
Proof. unfold primary_match, locale_given. apply _. Defined.

(** ** The parameter mapping, in exact arithmetic *)

(** Nearest integer to the rational [a / b] for a positive [b], ties to
    the even integer. *)
Definition round_ratio (a b : Z) : Z :=
  let q := a / b in
  let r := a mod b in
  match 2 * r ?= b with
  | Lt => q
  | Gt => q + 1
  | Eq => if Z.even q then q else q + 1
  end.

(** The rate of the specification: [round(((s - 175) / 75) * 50)] over the
    rationals, clamped to [-50, 50]. *)
Definition rate_percent (sliderValue : Z) : Z :=
  clamp (-50) 50 (round_ratio ((sliderValue - 175) * 50) 75).

(** One slider position: the mapper returns the string of [rate_percent],
    and that string reads back as the same integer. *)
Definition rate_agrees (sliderValue : Z) : bool :=
  match pct_to_edge_rate sliderValue with
  | Ok r =>
      bool_decide (r = format_plus_d (rate_percent sliderValue) ++ u "%") &&
      bool_decide (signed_pct_value r = Some (rate_percent sliderValue))
  | Raise _ => false
  end.

(** Conversion of a small integer to a float, and the check that integer
    division by 75 is the float division of the conversions. *)
Definition float_of_int (a : Z) : float :=
  let f := PrimFloat.of_uint63 (Uint63.of_Z (Z.abs a)) in
  if a <? 0 then (- f)%float else f.

Definition truediv_agrees (a : Z) : bool :=
  match int_truediv a 75 with
  | Ok q => PrimFloat.Leibniz.eqb q (float_of_int a / 75)%float
  | Raise _ => false
  end.

Definition reads_back (n : Z) : bool :=
  bool_decide (signed_pct_value (format_plus_d n ++ u "%") = Some n).

(** The integer [n] is the nearest integer to the number that [x] denotes,
    and the even one of the two nearest when that number lies half-way
    between them. A finite [x] denotes [(-1)^s * m * 2^e]; both sides are
    multiplied by [2^max(0, -e)], so that integers are compared. Infinities
    and NaN have no nearest integer. *)
Definition nearest_even_to (x : spec_float) (n : Z) : Prop :=
  match x with
  | S754_zero _ => n = 0
  | S754_finite s m e =>
      let scale := 2 ^ Z.max 0 (- e) in
      let scaled := cond_Zopp s (Zpos m * 2 ^ Z.max 0 e) in
      2 * Z.abs (n * scale - scaled) <= scale /\
      (2 * Z.abs (n * scale - scaled) = scale -> Z.even n = true)
  | _ => False
  end.

(** The binary64 number that the literal [0.99] denotes. *)
Definition ninety_nine_hundredths : float := 0x1.fae147ae147aep-1%float.

Module Binary64Spec.

(** A zero, or a finite number of magnitude below [2^b]. *)
Definition finite_below (b : Z) (x : spec_float) : Prop :=
  match x with
  | S754_zero _ => True
  | S754_finite _ m e => Zpos (digits2_pos m) + e <= b
  | _ => False
  end.

(** The binary64 numbers 1.0 and 50.0. *)
Definition SF_one : spec_float := S754_finite false 4503599627370496 (-52).
Definition SF_fifty : spec_float := S754_finite false 7036874417766400 (-47).

End Binary64Spec.

(** ** Labels and the default voice, in the words of the specification *)

(** [pat] occurs in [s] as a contiguous block. *)
Definition occurs_in (pat s : str) : Prop := exists a b, s = a ++ pat ++ b.

(** The lower-case form of [label] contains [name]. *)
Definition mentions (name label : str) : Prop := occurs_in name (lower label).

(** [key] is the first element of [keys], in order, that satisfies [P]. *)
Definition first_with (P : str -> Prop) (keys : list str) (key : str) : Prop :=
  exists before after,
    keys = before ++ key :: after /\ P key /\ Forall (fun k => ~ P k) before.

(** [seg] is what follows the last hyphen of [sn], or all of [sn] when it
    has no hyphen. *)
Definition trailing_segment (sn seg : str) : Prop :=
  ((45%N ∉ sn) /\ seg = sn) \/
  (exists before, sn = before ++ 45%N :: seg /\ 45%N ∉ seg).

(** The display name of a segment, the suffix being compared without regard
    to letter case: the six characters are removed and (Neural) is added. *)
Definition display_name (seg display : str) : Prop :=
  (exists base suffix,
     seg = base ++ suffix /\ lower suffix = u "neural" /\
     display = base ++ u " (Neural)") \/
  ((forall base suffix, seg = base ++ suffix -> lower suffix <> u "neural") /\
   display = seg).

(** A descriptor whose three fields hold strings. *)
Definition descriptor (v : voice) (sn loc g : str) : Prop :=
  v !! u "ShortName" = Some (PStr sn) /\
  v !! u "Locale" = Some (PStr loc) /\
  v !! u "Gender" = Some (PStr g).

(** The label format: display name, locale and gender, separated by
    dashes. *)
Definition label_of (display loc g : str) : str :=
  display ++ dash_sep ++ loc ++ dash_sep ++ g.

(** The label as the specification words it: the suffix Neural is looked
    for with its letter case. *)
Definition label_case_sensitive (sn loc g : str) : str :=
  let seg := if contains (u "-") sn then default [] (last (split 45%N sn)) else sn in
  let display :=
    if ends_with seg (u "Neural")
    then drop_last 6 seg ++ u " (Neural)"
    else seg in
  label_of display loc g.

(** Example descriptors. *)
Definition voice_of (sn loc g : str) : voice :=
  {[ u "ShortName" := PStr sn; u "Locale" := PStr loc; u "Gender" := PStr g ]}.

Definition jenny_voice : voice :=
  voice_of (u "en-US-JennyNeural") (u "en-US") (u "Female").

Definition shouting_voice : voice :=
  voice_of (u "en-US-GuyNEURAL") (u "en-US") (u "Male").

(** ** The generate action, in the words of the specification *)

(** The event is an outbound call to the synthesis service. *)
Definition is_call (ev : event) : Prop :=
  match ev with
  | Synthesize _ _ _ _ _ => True
  | _ => False
  end.

(** The event is not a call made while the busy flag was down. *)
Definition called_while_busy (ev : event) : Prop :=
  match ev with
  | Synthesize _ _ _ _ busy_now => busy_now = true
  | _ => True
  end.

(** The messages shown to the user. *)
Definition msg_enter_text : str := u "Please enter some text.".
Definition msg_audio_empty : str :=
  u "Generated audio is empty. Try a different voice.".
Definition msg_generated : str := u "Audio generated successfully".

(** An example request: the Jenny voice, the default widget values. *)
Definition example_inputs (txt : str) : inputs :=
  {| text := txt;
     voice_map := [(u "Jenny (Neural)", jenny_voice)];
     voice_choice := u "Jenny (Neural)";
     rate_slider := 180;
     volume := 1;
     filename := u "training_audio.mp3" |}.

(** Example services: one that writes [n] zero bytes, one that fails. *)
Definition service_writing (n : nat) : service :=
  fun _ _ _ _ => SynthWrote (repeat Byte.x00 n).

Definition service_failing : service := fun _ _ _ _ => SynthRaises.

Definition idle : world := {| busy := false; effects := [] |}.

(** ** Further notions used to state properties of the catalog *)

(** Each element once, at the place of its first occurrence. *)
Fixpoint first_occurrences (l : list str) : list str :=
  match l with
  | [] => []
  | x :: l' => x :: filter (fun y => y <> x) (first_occurrences l')
  end.

(** The short name of the entry is not [None]. *)
Definition short_name_usable (v : voice) : Prop :=
  v !! u "ShortName" <> Some PNone.

(** Two more example voices: one with the label of [jenny_voice] under
    another short name, and one whose short name is [None]. *)
Definition jenny_twin : voice :=
  voice_of (u "en-GB-JennyNEURAL") (u "en-US") (u "Female").

Definition nameless_voice : voice :=
  {[ u "ShortName" := PNone; u "Locale" := PStr (u "en-US") ]}.

(** The labels of the example voices. *)
Definition jenny_label : str :=
  u "Jenny (Neural)" ++ dash_sep ++ u "en-US" ++ dash_sep ++ u "Female".

Definition guy_label : str :=
  u "Guy (Neural)" ++ dash_sep ++ u "en-US" ++ dash_sep ++ u "Male".

(** ** Further notions used to state properties of the generate action *)

(** The world after a run in which the [finally] stored its value: the
    flag down, the log extended by [new]. *)
Definition released (w : world) (new : list event) : world :=
  {| busy := false; effects := effects w ++ new |}.

(** The event shows a result to the user: the success message, the player
    or the download button. *)
Definition is_output (ev : event) : Prop :=
  match ev with
  | Success _ | Audio _ _ | DownloadButton _ _ _ _ => True
  | _ => False
  end.

#[global] Instance is_call_dec ev : Decision (is_call ev).
Proof. destruct ev; simpl; apply _. Defined.

(** The string is a signed percentage that denotes an integer between [lo]
    and [hi]. *)
Definition percent_within (lo hi : Z) (s : str) : Prop :=
  exists n, s = format_plus_d n ++ u "%" /\ signed_pct_value s = Some n /\
            lo <= n <= hi.

(** What a call made for the inputs [i] carries: the text as typed, the
    short name of the chosen voice, a rate within [-50, 50] and a volume
    within [-50, 0]. *)
Definition request_for (i : inputs) (ev : event) : Prop :=
  match ev with
  | Synthesize t voice_short rate_str volume_str _ =>
      t = text i /\
      (exists v, dict_getitem (voice_map i) (voice_choice i) = Ok v /\
                 voice_short = dict_get v (u "ShortName") PNone) /\
      percent_within (-50) 50 rate_str /\
      percent_within (-50) 0 volume_str
  | _ => True
  end.

(** ** Further notions used to state properties of binary64 results *)

Module Binary64More.

(** The shape of a rounded result whose exact value has sign [sx] and lies
    in the binade below [2^mag]: never a NaN; a zero only by underflow, an
    infinity only by overflow, and otherwise a number of the same or the
    next binade. *)
Definition rounded_like (sx : bool) (mag : Z) (x : spec_float) : Prop :=
  match x with
  | S754_zero s => s = sx /\ mag <= -1074
  | S754_infinity s => s = sx /\ 1024 <= mag
  | S754_finite s m e =>
      s = sx /\
      mag <= Zpos (digits2_pos m) + e <= Z.max (mag + 1) (-1073) /\
      Zpos (digits2_pos m) + e <= 1024
  | S754_nan => False
  end.

(** The magnitude of the number is at least the positive integer [c]. *)
Definition at_least (c : Z) (x : spec_float) : Prop :=
  match x with
  | S754_finite _ m e => c * 2 ^ Z.max 0 (- e) <= Zpos m * 2 ^ Z.max 0 e
  | S754_infinity _ => True
  | _ => False
  end.

(** The sign bit of a number that is not a NaN. *)
Definition has_sign (s : bool) (x : spec_float) : Prop :=
  match x with
  | S754_zero s' | S754_infinity s' | S754_finite s' _ _ => s' = s
  | S754_nan => False
  end.

(** The binary64 number [2^1000], as a specification float and as a
    float, and the same bound as an integer. *)
Definition SF_big : spec_float := S754_finite false 4503599627370496 948.
Definition float_big : float := 0x1p1000%float.
Definition big : Z := 2 ^ 1000.

End Binary64More.

(** ** Binary64 arithmetic: results that stay finite *)

(** The lemmas below bound the exponent of what the rounding functions of
    the binary64 specification return, to show that the product computed by
    [volume_to_edge] is never an infinity or a NaN on the unit interval. *)

Module Binary64.
Import Binary64Spec.

Lemma digits2_pos_size p : digits2_pos p = Pos.size p.
Proof. induction p as [p IH|p IH|]; simpl; congruence. Qed.

Lemma Zdigits2_log2 m : 0 < m -> Zdigits2 m = Z.log2 m + 1.
Proof.
  destruct m as [|p|p]; try lia. intros _. simpl Zdigits2.
  rewrite digits2_pos_size. destruct p; simpl; lia.
Qed.

Lemma Zdigits2_nonneg m : 0 <= Zdigits2 m.
Proof. destruct m; simpl; lia. Qed.

Lemma Zdigits2_pos m : 0 < m -> 0 < Zdigits2 m.
Proof. destruct m; simpl; lia. Qed.

Lemma Zdigits2_mono a b : 0 <= a <= b -> Zdigits2 a <= Zdigits2 b.
Proof.
  intros [Ha Hab]. destruct (Z.eq_dec a 0) as [->|Hz].
  - apply Zdigits2_nonneg.
  - rewrite !Zdigits2_log2 by lia.
    pose proof (Z.log2_le_mono a b Hab). lia.
Qed.

Lemma Zdigits2_succ a : 0 <= a -> Zdigits2 (a + 1) <= Zdigits2 a + 1.
Proof.
  intros Ha. destruct (Z.eq_dec a 0) as [->|Hz]; [simpl; lia|].
  rewrite !Zdigits2_log2 by lia.
  pose proof (Z.log2_succ_le a). unfold Z.succ in *. lia.
Qed.

Lemma Zdigits2_shiftr a n :
  0 <= a -> 0 <= n -> Zdigits2 (Z.shiftr a n) = Z.max 0 (Zdigits2 a - n).
Proof.
  intros Ha Hn. destruct (Z.eq_dec a 0) as [->|Hz].
  - rewrite Z.shiftr_0_l. simpl. lia.
  - destruct (Z.eq_dec (Z.shiftr a n) 0) as [Hs|Hs].
    + rewrite Hs. apply Z.shiftr_eq_0_iff in Hs.
      destruct Hs as [Hs|[_ Hs]]; [lia|].
      change (Zdigits2 0) with 0. rewrite (Zdigits2_log2 a) by lia. lia.
    + assert (0 <= Z.shiftr a n) by (apply Z.shiftr_nonneg; lia).
      rewrite !Zdigits2_log2 by lia.
      rewrite Z.log2_shiftr by lia.
      assert (~ (Z.log2 a < n)).
      { intros Hlt. apply Hs. apply Z.shiftr_eq_0_iff. right. lia. }
      lia.
Qed.

Lemma Zdigits2_shiftl a n :
  0 < a -> 0 <= n -> Zdigits2 (Z.shiftl a n) = Zdigits2 a + n.
Proof.
  intros Ha Hn.
  assert (0 < Z.shiftl a n).
  { rewrite Z.shiftl_mul_pow2 by lia. apply Z.mul_pos_pos; [lia|].
    apply Z.pow_pos_nonneg; lia. }
  rewrite !Zdigits2_log2 by lia. rewrite Z.log2_shiftl by lia. lia.
Qed.

Lemma Zdigits2_mul a b :
  0 < a -> 0 < b ->
  Zdigits2 a + Zdigits2 b - 1 <= Zdigits2 (a * b) <= Zdigits2 a + Zdigits2 b.
Proof.
  intros Ha Hb. assert (0 < a * b) by (apply Z.mul_pos_pos; lia).
  rewrite !Zdigits2_log2 by lia.
  pose proof (Z.log2_mul_below a b Ha Hb).
  pose proof (Z.log2_mul_above a b). lia.
Qed.

Lemma shr_1_m r : 0 <= shr_m r -> shr_m (shr_1 r) = Z.shiftr (shr_m r) 1.
Proof.
  destruct r as [m r s]. simpl. intros Hm.
  rewrite <- Z.div2_spec. destruct m as [|[p|p|]|p]; try reflexivity; lia.
Qed.

Lemma shr_iter_m p : forall r,
  0 <= shr_m r -> shr_m (SpecFloat.iter_pos shr_1 p r) = Z.shiftr (shr_m r) (Zpos p).
Proof.
  induction p as [p IH|p IH|]; intros r Hr; simpl SpecFloat.iter_pos.
  - assert (0 <= shr_m (shr_1 r)).
    { rewrite shr_1_m by assumption. apply Z.shiftr_nonneg. assumption. }
    assert (0 <= shr_m (SpecFloat.iter_pos shr_1 p (shr_1 r))).
    { rewrite IH by assumption. apply Z.shiftr_nonneg. assumption. }
    rewrite IH by assumption. rewrite IH by assumption.
    rewrite shr_1_m by assumption.
    rewrite !Z.shiftr_shiftr by lia. f_equal. lia.
  - assert (0 <= shr_m (SpecFloat.iter_pos shr_1 p r)).
    { rewrite IH by assumption. apply Z.shiftr_nonneg. assumption. }
    rewrite IH by assumption. rewrite IH by assumption.
    rewrite !Z.shiftr_shiftr by lia. f_equal. lia.
  - apply shr_1_m. assumption.
Qed.

Lemma shr_record_of_loc_m m l : shr_m (shr_record_of_loc m l) = m.
Proof. destruct l as [|[| |]]; reflexivity. Qed.

(** The mantissa and exponent that [shr_fexp] returns. *)
Lemma shr_fexp_spec m e l :
  0 <= m ->
  let n := Z.max 0 (fexp prec emax (Zdigits2 m + e) - e) in
  shr_m (fst (shr_fexp prec emax m e l)) = Z.shiftr m n /\
  snd (shr_fexp prec emax m e l) = e + n.
Proof.
  intros Hm n. unfold shr_fexp, shr. subst n.
  destruct (fexp prec emax (Zdigits2 m + e) - e) as [|p|p]; simpl fst; simpl snd.
  - rewrite shr_record_of_loc_m. rewrite Z.max_id, Z.shiftr_0_r. lia.
  - rewrite shr_iter_m by (rewrite shr_record_of_loc_m; assumption).
    rewrite shr_record_of_loc_m. rewrite Z.max_r by lia. split; reflexivity.
  - rewrite shr_record_of_loc_m. rewrite Z.max_l by lia.
    rewrite Z.shiftr_0_r. lia.
Qed.

Lemma round_nearest_even_bounds m l :
  m <= round_nearest_even m l <= m + 1.
Proof.
  destruct l as [|[| |]]; simpl; try lia. destruct (Z.even m); lia.
Qed.

Lemma binary_round_aux_finite sx mx ex lx b :
  0 < mx -> ex <= fexp prec emax (Zdigits2 mx + ex) ->
  Zdigits2 mx + ex <= b -> b < emax ->
  finite_below (Z.max (b + 1) (-1020)) (binary_round_aux prec emax sx mx ex lx).
Proof.
  intros Hmx Hex Hb Hemax. unfold binary_round_aux.
  destruct (shr_fexp_spec mx ex lx ltac:(lia)) as [Hm1 He1].
  destruct (shr_fexp prec emax mx ex lx) as [mrs1 e1]. simpl in Hm1, He1.
  set (m1 := round_nearest_even (shr_m mrs1) (loc_of_shr_record mrs1)).
  pose proof (round_nearest_even_bounds (shr_m mrs1) (loc_of_shr_record mrs1))
    as Hrne. fold m1 in Hrne.
  assert (0 <= shr_m mrs1) as Hnn1
    by (rewrite Hm1; apply Z.shiftr_nonneg; lia).
  assert (Zdigits2 (shr_m mrs1) <= prec) as Hd1.
  { rewrite Hm1. rewrite Zdigits2_shiftr by lia.
    pose proof (Zdigits2_pos mx Hmx).
    unfold fexp, SpecFloat.emin, prec, emax in *. lia. }
  assert (Zdigits2 m1 <= prec + 1) as Hdm1.
  { pose proof (Zdigits2_mono m1 (shr_m mrs1 + 1) ltac:(lia)).
    pose proof (Zdigits2_succ (shr_m mrs1) Hnn1). lia. }
  destruct (shr_fexp_spec m1 e1 loc_Exact ltac:(lia)) as [Hm2 He2].
  destruct (shr_fexp prec emax m1 e1 loc_Exact) as [mrs2 e2].
  simpl in Hm2, He2.
  assert (0 <= shr_m mrs2) as Hnn2
    by (rewrite Hm2; apply Z.shiftr_nonneg; lia).
  pose proof (Zdigits2_nonneg m1) as Hdn.
  destruct (shr_m mrs2) as [|m2|m2] eqn:Hs2; [exact I| |lia].
  assert (Zdigits2 (Zpos m2) =
          Z.max 0 (Zdigits2 m1 - Z.max 0 (fexp prec emax (Zdigits2 m1 + e1) - e1)))
    as Hd2 by (rewrite Hm2; apply Zdigits2_shiftr; lia).
  simpl Zdigits2 in Hd2.
  assert (e2 <= emax - prec) as Hle.
  { unfold fexp, SpecFloat.emin, prec, emax in *. lia. }
  apply Z.leb_le in Hle. rewrite Hle. simpl.
  unfold fexp, SpecFloat.emin, prec, emax in *. lia.
Qed.

Lemma finite_below_mono b c x : b <= c -> finite_below b x -> finite_below c x.
Proof. destruct x; simpl; auto. lia. Qed.

Lemma pos_iter_xO_shiftl m d :
  Zpos (Pos.iter xO m d) = Z.shiftl (Zpos m) (Zpos d).
Proof.
  simpl Z.shiftl. revert m.
  apply (Pos.iter_swap_gen _ _ Zpos xO (Z.mul 2)). reflexivity.
Qed.

(** [shl_align] keeps the value and lowers the exponent to the smaller of
    the two. *)
Lemma shl_align_spec mx ex ex' :
  snd (shl_align mx ex ex') = Z.min ex ex' /\
  Zpos (fst (shl_align mx ex ex')) = Z.shiftl (Zpos mx) (ex - Z.min ex ex').
Proof.
  unfold shl_align. destruct (ex' - ex) as [|d|d] eqn:Hd; simpl fst; simpl snd.
  - replace (ex - Z.min ex ex') with 0 by lia. rewrite Z.shiftl_0_r. lia.
  - replace (ex - Z.min ex ex') with 0 by lia. rewrite Z.shiftl_0_r. lia.
  - rewrite pos_iter_xO_shiftl. split; [lia|]. f_equal. lia.
Qed.

Lemma shl_align_digits mx ex ex' :
  Zdigits2 (Zpos (fst (shl_align mx ex ex'))) + snd (shl_align mx ex ex') =
  Zdigits2 (Zpos mx) + ex.
Proof.
  destruct (shl_align_spec mx ex ex') as [He Hm]. rewrite He, Hm.
  rewrite Zdigits2_shiftl by lia. lia.
Qed.

Lemma binary_round_finite sx mx ex b :
  Zdigits2 (Zpos mx) + ex <= b -> b < emax ->
  finite_below (Z.max (b + 1) (-1020)) (binary_round prec emax sx mx ex).
Proof.
  intros Hb Hemax. unfold binary_round.
  pose proof (shl_align_digits mx ex (fexp prec emax (Zpos (digits2_pos mx) + ex)))
    as Hd.
  destruct (shl_align_spec mx ex (fexp prec emax (Zpos (digits2_pos mx) + ex)))
    as [He _].
  destruct (shl_align mx ex (fexp prec emax (Zpos (digits2_pos mx) + ex)))
    as [mz ez]. simpl fst in *. simpl snd in *.
  apply binary_round_aux_finite; try lia.
  rewrite Hd. simpl Zdigits2. lia.
Qed.

Lemma binary_normalize_finite m e szero b :
  Zdigits2 m + e <= b -> b < emax ->
  finite_below (Z.max (b + 1) (-1020)) (binary_normalize prec emax m e szero).
Proof.
  intros Hb Hemax. destruct m as [|p|p]; simpl binary_normalize.
  - exact I.
  - apply binary_round_finite; assumption.
  - apply binary_round_finite; assumption.
Qed.

Lemma Zdigits2_abs m : Zdigits2 m = Zdigits2 (Z.abs m).
Proof. destruct m; reflexivity. Qed.

(** The difference of two positive integers has no more digits than the
    larger one. *)
Lemma Zdigits2_sub a b d :
  0 < a -> 0 < b -> Zdigits2 a <= d -> Zdigits2 b <= d -> Zdigits2 (a - b) <= d.
Proof.
  intros Ha Hb Hda Hdb. rewrite Zdigits2_abs.
  destruct (Z.le_gt_cases b a).
  - pose proof (Zdigits2_mono (Z.abs (a - b)) a ltac:(lia)). lia.
  - pose proof (Zdigits2_mono (Z.abs (a - b)) b ltac:(lia)). lia.
Qed.

Lemma Prim2SF_one : Prim2SF 1 = SF_one.
Proof. vm_compute. reflexivity. Qed.

Lemma Prim2SF_fifty : Prim2SF 50 = SF_fifty.
Proof. vm_compute. reflexivity. Qed.

Lemma Prim2SF_zero : Prim2SF 0 = S754_zero false.
Proof. vm_compute. reflexivity. Qed.

(** Subtracting one from a number of the unit interval gives a zero or a
    finite number. *)
Lemma SF64sub_one_finite x :
  valid_binary x = true ->
  SFleb (S754_zero false) x = true -> SFleb x SF_one = true ->
  finite_below 2 (SF64sub x SF_one).
Proof.
  intros Hv H0 H1. destruct x as [s|s| |s m e].
  - simpl. vm_compute. discriminate.
  - destruct s; vm_compute in H0, H1; discriminate.
  - vm_compute in H0. discriminate.
  - destruct s; [vm_compute in H0; discriminate|].
    assert (e <= -52) as He.
    { unfold SFleb, SFcompare, SF_one in H1.
      destruct (e ?= -52) eqn:Hc; try discriminate.
      - apply Z.compare_eq in Hc. lia.
      - rewrite Z.compare_lt_iff in Hc. lia. }
    assert (Zpos (digits2_pos m) + e <= 1) as Hdm.
    { unfold SpecFloat.valid_binary, bounded, canonical_mantissa in Hv.
      apply andb_prop in Hv. destruct Hv as [Hc _]. apply Z.eqb_eq in Hc.
      unfold fexp, SpecFloat.emin, prec, emax in Hc. lia. }
    unfold SF64sub, SFsub, SF_one. cbv zeta.
    replace (Z.min e (-52)) with e by lia.
    pose proof (shl_align_digits m e e) as Hd1.
    pose proof (shl_align_digits 4503599627370496 (-52) e) as Hd2.
    destruct (shl_align_spec m e e) as [He1 _].
    destruct (shl_align_spec 4503599627370496 (-52) e) as [He2 _].
    rewrite He1 in Hd1. rewrite He2 in Hd2.
    replace (Z.min e e) with e in Hd1 by lia.
    replace (Z.min (-52) e) with e in Hd2 by lia.
    change (Zdigits2 4503599627370496) with 53 in Hd2.
    simpl (Zdigits2 (Zpos m)) in Hd1.
    unfold cond_Zopp.
    apply (finite_below_mono (Z.max (1 + 1) (-1020))); [lia|].
    apply binary_normalize_finite; [|unfold emax; lia].
    assert (Zdigits2 (Zpos (fst (shl_align m e e)) -
                      Zpos (fst (shl_align 4503599627370496 (-52) e))) <= 1 - e);
      [|lia].
    apply Zdigits2_sub; lia.
Qed.

(** Fifty times a zero or a finite number below four is a zero or a
    finite number. *)
Lemma SF64mul_fifty_finite x :
  finite_below 2 x -> finite_below 9 (SF64mul x SF_fifty).
Proof.
  destruct x as [s|s| |s m e]; simpl; try tauto.
  intros Hx.
  pose proof (Zdigits2_mul (Zpos m) 7036874417766400 ltac:(lia) ltac:(lia))
    as Hmul.
  change (Zdigits2 7036874417766400) with 53 in Hmul.
  simpl (Zdigits2 (Zpos m)) in Hmul.
  assert (0 < Zpos (digits2_pos m)) by lia.
  apply (finite_below_mono (Z.max (8 + 1) (-1020))); [lia|].
  apply binary_round_aux_finite.
  - lia.
  - change (Zpos (m * 7036874417766400)) with (Zpos m * 7036874417766400).
    unfold fexp, SpecFloat.emin, prec, emax. lia.
  - change (Zpos (m * 7036874417766400)) with (Zpos m * 7036874417766400). lia.
  - unfold emax. lia.
Qed.

(** For a float of the unit interval, [(vol - 1) * 50] is a zero or a
    finite number. *)
Lemma unit_interval_scaled_finite (vol : float) :
  (0 <=? vol)%float = true -> (vol <=? 1)%float = true ->
  finite_below 9 (Prim2SF ((vol - 1) * 50)%float).
Proof.
  intros H0 H1. rewrite leb_spec in H0, H1.
  rewrite Prim2SF_zero in H0. rewrite Prim2SF_one in H1.
  rewrite mul_spec, sub_spec, Prim2SF_one, Prim2SF_fifty.
  apply SF64mul_fifty_finite, SF64sub_one_finite; auto.
  apply Prim2SF_valid.
Qed.

End Binary64.
(** ** Theorems on the parameter mapper *)

Lemma rate_agrees_all : forallb rate_agrees (seqZ 100 151) = true.
Proof. vm_compute. reflexivity. Qed.

Lemma reads_back_all : forallb reads_back (seqZ (-50) 101) = true.
Proof. vm_compute. reflexivity. Qed.

Lemma forallb_seqZ (f : Z -> bool) (lo len x : Z) :
  forallb f (seqZ lo len) = true -> lo <= x < lo + len -> f x = true.
Proof.
  intros Hall Hx. rewrite forallb_forall in Hall. apply Hall.
  apply list_elem_of_In, elem_of_seqZ. lia.
Qed.

(** A signed percentage between -50% and +50% reads back as its integer. *)
Lemma signed_pct_roundtrip (n : Z) :
  -50 <= n <= 50 -> signed_pct_value (format_plus_d n ++ u "%") = Some n.
Proof.
  intros Hn. pose proof (forallb_seqZ reads_back (-50) 101 n reads_back_all) as H.
  unfold reads_back in H. apply bool_decide_eq_true in H; [exact H|lia].
Qed.

Lemma clamp_bounds (lo hi val : Z) : lo <= hi -> lo <= clamp lo hi val <= hi.
Proof. unfold clamp. lia. Qed.

(** On small operands the quotient of two integers is the binary64
    quotient of their conversions. *)
Lemma int_truediv_small :
  forallb truediv_agrees (seqZ (-75) 151) = true.
Proof. vm_compute. reflexivity. Qed.

(** [round_half_even] returns an integer at distance at most one half. *)
Lemma round_half_even_nearest (m : positive) (e : Z) :
  e < 0 -> 2 * Z.abs (round_half_even m e * 2 ^ (- e) - Zpos m) <= 2 ^ (- e).
Proof.
  intros He. unfold round_half_even.
  destruct (Z.leb_spec 0 e) as [Hle|_]; [lia|].
  assert (0 < 2 ^ (- e)) as Hd by (apply Z.pow_pos_nonneg; lia).
  set (d := 2 ^ (- e)) in *.
  pose proof (Z.div_mod (Zpos m) d ltac:(lia)) as Hdm.
  pose proof (Z.mod_pos_bound (Zpos m) d Hd) as Hr.
  set (q := Zpos m / d) in *. set (r := Zpos m mod d) in *.
  destruct (Z.compare_spec (2 * r) d) as [Hc|Hc|Hc].
  - destruct (Z.even q); lia.
  - lia.
  - lia.
Qed.

(** No slider value falls half-way between two integers, so the rule for
    ties plays no part in the rate. *)
Lemma rate_no_tie (sliderValue : Z) :
  2 * (((sliderValue - 175) * 50) mod 75) <> 75.
Proof. lia. Qed.

(** C1: for every slider value from 100 to 250 the rate mapper returns the
    signed percentage of round(((sliderValue - 175) / 75) * 50) clamped to
    [-50, 50], written with its sign; 175 gives +0%, 100 gives -50% and 250
    gives +50%. *)
Theorem pct_to_edge_rate_spec (sliderValue : Z) :
  100 <= sliderValue <= 250 ->
  pct_to_edge_rate sliderValue =
    Ok (format_plus_d (rate_percent sliderValue) ++ u "%") /\
  signed_pct_value (format_plus_d (rate_percent sliderValue) ++ u "%") =
    Some (rate_percent sliderValue) /\
  -50 <= rate_percent sliderValue <= 50 /\
  pct_to_edge_rate 175 = Ok (u "+0%") /\
  pct_to_edge_rate 100 = Ok (u "-50%") /\
  pct_to_edge_rate 250 = Ok (u "+50%").
Proof.
  intros Hs.
  pose proof (forallb_seqZ rate_agrees 100 151 sliderValue rate_agrees_all) as H.
  unfold rate_agrees in H. specialize (H ltac:(lia)).
  destruct (pct_to_edge_rate sliderValue) as [r|e]; [|discriminate].
  apply andb_prop in H. destruct H as [H1 H2].
  apply bool_decide_eq_true in H1. apply bool_decide_eq_true in H2. subst r.
  split; [reflexivity|]. split; [exact H2|].
  split; [apply clamp_bounds; lia|].
  repeat split; vm_compute; reflexivity.
Qed.

Lemma pct_to_edge_rate_spec_witness :
  100 <= 180 <= 250 /\
  pct_to_edge_rate 180 = Ok (format_plus_d (rate_percent 180) ++ u "%") /\
  rate_percent 180 = 3.
Proof.
  split; [lia|].
  split; [apply (pct_to_edge_rate_spec 180); lia|reflexivity].
Defined.

(** [round_half_even] returns an even integer when it is half-way. *)
Lemma round_half_even_tie (m : positive) (e : Z) :
  e < 0 ->
  2 * Z.abs (round_half_even m e * 2 ^ (- e) - Zpos m) = 2 ^ (- e) ->
  Z.even (round_half_even m e) = true.
Proof.
  intros He. unfold round_half_even.
  destruct (Z.leb_spec 0 e) as [Hle|_]; [lia|].
  assert (0 < 2 ^ (- e)) as Hd by (apply Z.pow_pos_nonneg; lia).
  set (d := 2 ^ (- e)) in *.
  pose proof (Z.div_mod (Zpos m) d ltac:(lia)) as Hdm.
  pose proof (Z.mod_pos_bound (Zpos m) d Hd) as Hr.
  set (q := Zpos m / d) in *. set (r := Zpos m mod d) in *.
  destruct (Z.compare_spec (2 * r) d) as [Hc|Hc|Hc].
  - intros _. destruct (Z.even q) eqn:Hq; [exact Hq|].
    rewrite Z.even_add, Hq. reflexivity.
  - lia.
  - lia.
Qed.

(** What [py_round] returns is the nearest integer, ties to even. *)
Lemma py_round_nearest (x : float) (n : Z) :
  py_round x = Ok n -> nearest_even_to (Prim2SF x) n.
Proof.
  unfold py_round, nearest_even_to.
  destruct (Prim2SF x) as [s|s| |s m e]; try discriminate.
  - intros [= <-]. reflexivity.
  - intros [= <-]. cbv zeta.
    destruct (Z.leb_spec 0 e) as [Hle|Hlt].
    + assert (round_half_even m e = Zpos m * 2 ^ e) as ->.
      { unfold round_half_even. destruct (Z.leb_spec 0 e); [reflexivity|lia]. }
      rewrite (Z.max_l 0 (- e)) by lia. rewrite (Z.max_r 0 e) by lia.
      change (2 ^ 0) with 1.
      destruct s; simpl cond_Zopp; split; lia.
    + rewrite (Z.max_r 0 (- e)) by lia. rewrite (Z.max_l 0 e) by lia.
      change (2 ^ 0) with 1. rewrite Z.mul_1_r.
      pose proof (round_half_even_nearest m e Hlt) as Hn.
      pose proof (round_half_even_tie m e Hlt) as Ht.
      set (r := round_half_even m e) in *. set (d := 2 ^ (- e)) in *.
      destruct s; simpl cond_Zopp.
      * rewrite Z.even_opp.
        replace (- r * d - - Zpos m) with (- (r * d - Zpos m)) by ring.
        rewrite Z.abs_opp. split; assumption.
      * split; assumption.
Qed.

(** At most one integer is the nearest with ties to even. *)
Lemma nearest_even_to_unique (x : spec_float) (n1 n2 : Z) :
  nearest_even_to x n1 -> nearest_even_to x n2 -> n1 = n2.
Proof.
  unfold nearest_even_to. destruct x as [s|s| |s m e]; try contradiction.
  - congruence.
  - cbv zeta.
    assert (0 < 2 ^ Z.max 0 (- e)) as Hd by (apply Z.pow_pos_nonneg; lia).
    set (d := 2 ^ Z.max 0 (- e)) in *.
    set (x := cond_Zopp s (Zpos m * 2 ^ Z.max 0 e)).
    intros [H1 E1] [H2 E2].
    destruct (Z.lt_trichotomy n1 n2) as [Hlt|[Heq|Hgt]]; [|exact Heq|].
    + exfalso.
      assert (n1 * d + d <= n2 * d) as Hstep by nia.
      assert (n2 = n1 + 1) as -> by nia.
      specialize (E1 ltac:(lia)). specialize (E2 ltac:(lia)).
      rewrite Z.even_add, E1 in E2. discriminate.
    + exfalso.
      assert (n2 * d + d <= n1 * d) as Hstep by nia.
      assert (n1 = n2 + 1) as -> by nia.
      specialize (E1 ltac:(lia)). specialize (E2 ltac:(lia)).
      rewrite Z.even_add, E2 in E1. discriminate.
Qed.

(** C2: for every volume fraction from 0.0 to 1.0 the volume mapper returns
    the signed percentage of round((volumeFraction - 1.0) * 50) clamped to
    [-50, 0], where the rounded value is the one integer nearest to the
    product, the even one at a tie; so the value the string denotes lies in
    [-50, 0]; 1.0 gives +0% and 0.0 gives -50%. *)
Theorem volume_to_edge_spec (volumeFraction : float) :
  (0 <=? volumeFraction)%float = true ->
  (volumeFraction <=? 1)%float = true ->
  (exists rounded val,
     py_round ((volumeFraction - 1) * 50)%float = Ok rounded /\
     (forall n,
        nearest_even_to (Prim2SF ((volumeFraction - 1) * 50)%float) n <->
        n = rounded) /\
     val = clamp (-50) 0 rounded /\
     volume_to_edge volumeFraction = Ok (format_plus_d val ++ u "%") /\
     signed_pct_value (format_plus_d val ++ u "%") = Some val /\
     -50 <= val <= 0) /\
  volume_to_edge 1 = Ok (u "+0%") /\
  volume_to_edge 0 = Ok (u "-50%").
Proof.
  intros H0 H1. split; [|split; vm_compute; reflexivity].
  pose proof (Binary64.unit_interval_scaled_finite volumeFraction H0 H1) as Hfin.
  assert (exists rounded,
            py_round ((volumeFraction - 1) * 50)%float = Ok rounded)
    as [rounded Hround].
  { unfold py_round.
    destruct (Prim2SF ((volumeFraction - 1) * 50)%float);
      simpl in Hfin; try contradiction; eauto. }
  pose proof (py_round_nearest _ _ Hround) as Hnear.
  exists rounded, (clamp (-50) 0 rounded).
  pose proof (clamp_bounds (-50) 0 rounded ltac:(lia)) as Hc.
  split; [exact Hround|]. split.
  { intros n. split.
    - intros Hn. exact (nearest_even_to_unique _ _ _ Hn Hnear).
    - intros ->. exact Hnear. }
  split; [reflexivity|]. split.
  { unfold volume_to_edge. rewrite Hround. reflexivity. }
  split; [apply signed_pct_roundtrip; lia|exact Hc].
Qed.

Lemma volume_to_edge_spec_witness :
  (0 <=? ninety_nine_hundredths)%float = true /\ (ninety_nine_hundredths <=? 1)%float = true /\
  nearest_even_to (Prim2SF ((ninety_nine_hundredths - 1) * 50)%float) (-1) /\
  volume_to_edge ninety_nine_hundredths = Ok (u "-1%").
Proof.
  split; [reflexivity|]. split; [reflexivity|].
  destruct (volume_to_edge_spec ninety_nine_hundredths eq_refl eq_refl)
    as [(rounded & val & _ & Hn & Hval & Hv & _) _].
  assert (nearest_even_to (Prim2SF ((ninety_nine_hundredths - 1) * 50)%float) (-1)) as Hnear.
  { vm_compute. split; [discriminate|discriminate]. }
  split; [exact Hnear|].
  apply Hn in Hnear. subst rounded. subst val. exact Hv.
Defined.

(** Half-way products go to the even neighbour, the others to the nearest
    integer. *)
Example volume_to_edge_examples :
  volume_to_edge ninety_nine_hundredths = Ok (u "-1%") /\
  volume_to_edge 0.75 = Ok (u "-12%") /\
  volume_to_edge 0.25 = Ok (u "-38%") /\
  volume_to_edge 0.5 = Ok (u "-25%").
Proof. repeat split; vm_compute; reflexivity. Qed.
(** ** Lemmas on the voice filter *)

Section VoiceFilter.

Implicit Types (v : voice) (voices : list voice) (pl : pyval) (pf : bool).

Lemma truthy_not_empty pl : truthy pl = true -> pl <> PNone /\ pl <> PStr [].
Proof.
  destruct pl as [|s]; simpl; [discriminate|].
  case_bool_decide; simpl; [discriminate|]. intros _. split; congruence.
Qed.

(** With a locale given, [v.get("Locale", "")] and [v.get("Locale")]
    compare with it like the field itself. *)
Lemma get_locale_given pl v d :
  truthy pl = true -> d = PNone \/ d = PStr [] ->
  dict_get v (u "Locale") d = pl <-> has_locale pl v.
Proof.
  intros Ht Hd. destruct (truthy_not_empty pl Ht) as [Hn He].
  unfold dict_get, has_locale.
  destruct (v !! u "Locale") as [x|]; simpl.
  - split; congruence.
  - split; [|discriminate]. destruct Hd; congruence.
Qed.

Lemma gender_lower_female v : gender_lower v = u "female" <-> is_female v.
Proof.
  unfold gender_lower, is_female, dict_get, py_or.
  destruct (v !! u "Gender") as [[|g]|]; simpl.
  - split; [discriminate|tauto].
  - case_bool_decide as Hg; simpl; [|tauto].
    subst g. split; discriminate.
  - split; [discriminate|tauto].
Qed.

(** The loop keeps exactly the entries of the primary pass, in order. *)
Lemma primary_pass_filter voices pl pf :
  primary_pass voices pl pf = filter (primary_match pl pf) voices.
Proof.
  induction voices as [|v rest IH]; [reflexivity|].
  cbn [primary_pass]. rewrite IH. clear IH.
  destruct (truthy pl) eqn:Ht; simpl.
  - case_bool_decide as Hl; simpl.
    + rewrite filter_cons_False; [reflexivity|].
      intros [Hm _]. apply Hl. apply (get_locale_given pl v (PStr [])); auto.
    + assert (has_locale pl v) as Hv
        by (apply (get_locale_given pl v (PStr [])); auto).
      destruct pf; simpl.
      * case_bool_decide as Hg.
        -- rewrite filter_cons_False; [reflexivity|].
           intros [_ Hf]. apply Hg, gender_lower_female; auto.
        -- rewrite filter_cons_True; [reflexivity|].
           split; [auto|]. intros _. apply gender_lower_female; assumption.
      * rewrite filter_cons_True; [reflexivity|]. split; [auto|discriminate].
  - assert (~ locale_given pl) as Hng by (unfold locale_given; congruence).
    destruct pf; simpl.
    + case_bool_decide as Hg.
      * rewrite filter_cons_False; [reflexivity|].
        intros [_ Hf]. apply Hg, gender_lower_female; auto.
      * rewrite filter_cons_True; [reflexivity|].
        split; [tauto|]. intros _. apply gender_lower_female; assumption.
    + rewrite filter_cons_True; [reflexivity|]. split; [tauto|discriminate].
Qed.

Lemma locale_pass_filter voices pl :
  truthy pl = true -> locale_pass voices pl = filter (has_locale pl) voices.
Proof.
  intros Ht. unfold locale_pass. apply list_filter_iff.
  intros v. apply get_locale_given; auto.
Qed.

(** The function as a cascade over the three candidate lists. *)
Lemma filter_voice_list_cascade voices pl pf :
  filter_voice_list voices pl pf =
    match filter (primary_match pl pf) voices with
    | p :: ps => p :: ps
    | [] =>
        match (if truthy pl then filter (has_locale pl) voices else voices) with
        | q :: qs => q :: qs
        | [] => voices
        end
    end.
Proof.
  unfold filter_voice_list. rewrite primary_pass_filter.
  destruct (filter (primary_match pl pf) voices); [|reflexivity].
  destruct (truthy pl) eqn:Ht; [|destruct voices; reflexivity].
  rewrite locale_pass_filter by assumption.
  destruct (filter (has_locale pl) voices); reflexivity.
Qed.

End VoiceFilter.

(** ** Theorems on the voice filter *)

(** C3: on a non-empty catalog, whatever the preferred locale (none given
    included) and the gender preference, the filter returns a non-empty
    list: the primary pass when it is non-empty, else the entries of the
    given locale when there are some, else the whole catalog. *)
Theorem filter_voice_list_nonempty (voices : list voice) (prefer_lang : pyval)
    (prefer_female : bool) :
  voices <> [] ->
  let primary := filter (primary_match prefer_lang prefer_female) voices in
  let by_locale := filter (has_locale prefer_lang) voices in
  let out := filter_voice_list voices prefer_lang prefer_female in
  out <> [] /\
  (primary <> [] -> out = primary) /\
  (primary = [] -> locale_given prefer_lang -> by_locale <> [] ->
   out = by_locale) /\
  (primary = [] -> ~ locale_given prefer_lang \/ by_locale = [] ->
   out = voices).
Proof.
  intros Hne. cbv zeta. rewrite filter_voice_list_cascade.
  unfold locale_given.
  destruct (filter (primary_match prefer_lang prefer_female) voices)
    as [|p ps] eqn:Hp.
  - destruct (truthy prefer_lang) eqn:Ht.
    + destruct (filter (has_locale prefer_lang) voices) as [|q qs] eqn:Hq.
      * split; [assumption|]. split; [congruence|]. split; [congruence|auto].
      * split; [discriminate|]. split; [congruence|]. split; [auto|].
        intros _ [H|H]; [congruence|discriminate].
    + destruct voices as [|v rest]; [congruence|].
      split; [discriminate|]. split; [congruence|]. split; [discriminate|auto].
  - split; [discriminate|]. split; [reflexivity|]. split; discriminate.
Qed.

Lemma filter_voice_list_nonempty_witness :
  [shouting_voice] <> [] /\
  filter_voice_list [shouting_voice] (PStr (u "fr-FR")) true = [shouting_voice].
Proof.
  split; [discriminate|].
  destruct (filter_voice_list_nonempty [shouting_voice] (PStr (u "fr-FR")) true
              ltac:(discriminate)) as (_ & _ & _ & Hall).
  apply Hall; [vm_compute; reflexivity|].
  right. vm_compute. reflexivity.
Defined.

(** C4: when the catalog has an entry whose locale is en-US and whose gender
    is female up to letter case, the filter for en-US and a female voice
    returns exactly the entries of that kind, in catalog order. *)
Theorem filter_voice_list_en_us_female (catalog : list voice) :
  (exists v, v ∈ catalog /\ has_locale (PStr (u "en-US")) v /\ is_female v) ->
  let out := filter_voice_list catalog (PStr (u "en-US")) true in
  out = filter (fun v => has_locale (PStr (u "en-US")) v /\ is_female v) catalog /\
  (forall v, v ∈ out <-> v ∈ catalog /\ has_locale (PStr (u "en-US")) v /\ is_female v) /\
  sublist out catalog.
Proof.
  intros (v & Hin & Hl & Hf). cbv zeta.
  assert (filter_voice_list catalog (PStr (u "en-US")) true =
          filter (fun v => has_locale (PStr (u "en-US")) v /\ is_female v) catalog)
    as Heq.
  { rewrite filter_voice_list_cascade.
    assert (filter (primary_match (PStr (u "en-US")) true) catalog =
            filter (fun v => has_locale (PStr (u "en-US")) v /\ is_female v) catalog)
      as Hsame.
    { apply list_filter_iff. intros x. unfold primary_match, locale_given.
      split.
      - intros [H1 H2]. split; [apply H1; reflexivity|apply H2; reflexivity].
      - intros [H1 H2]. split; auto. }
    rewrite Hsame.
    destruct (filter (fun v => has_locale (PStr (u "en-US")) v /\ is_female v)
                catalog) as [|p ps] eqn:Hp; [|reflexivity].
    exfalso.
    assert (v ∈ filter (fun v => has_locale (PStr (u "en-US")) v /\ is_female v)
                  catalog) as Hv by (apply list_elem_of_filter; auto).
    rewrite Hp in Hv. inversion Hv. }
  rewrite Heq. split; [reflexivity|]. split.
  - intros x. rewrite list_elem_of_filter. tauto.
  - apply sublist_filter.
Qed.

Lemma filter_voice_list_en_us_female_witness :
  filter_voice_list [shouting_voice; jenny_voice] (PStr (u "en-US")) true =
    [jenny_voice].
Proof.
  assert (exists v, v ∈ [shouting_voice; jenny_voice] /\
                    has_locale (PStr (u "en-US")) v /\ is_female v) as Hex.
  { exists jenny_voice. split; [right; left|].
    split; vm_compute; reflexivity. }
  destruct (filter_voice_list_en_us_female [shouting_voice; jenny_voice] Hex)
    as (Hout & _).
  rewrite Hout. vm_compute. reflexivity.
Defined.

(** C10: with no preferred locale and no gender preference the filter
    returns the catalog it was given, entry for entry. *)
Theorem filter_voice_list_no_preference (catalog : list voice) :
  filter_voice_list catalog PNone false = catalog.
Proof.
  assert (primary_pass catalog PNone false = catalog) as Hp.
  { induction catalog as [|v rest IH]; [reflexivity|].
    cbn [primary_pass truthy andb]. rewrite IH. reflexivity. }
  unfold filter_voice_list. rewrite Hp.
  destruct catalog; reflexivity.
Qed.
(** ** Lemmas on strings *)

Section Strings.

Implicit Types (s pat pre suf seg : str) (c sep : N).

Lemma starts_with_spec pre : forall s,
  starts_with s pre = true <-> exists b, s = pre ++ b.
Proof.
  induction pre as [|p pre IH]; intros s.
  - destruct s; simpl; split; eauto.
  - destruct s as [|c s]; simpl.
    + split; [discriminate|]. intros [b Hb]. discriminate.
    + rewrite andb_true_iff, N.eqb_eq, IH. split.
      * intros [-> [b ->]]. eauto.
      * intros [b Hb]. injection Hb as -> ->. eauto.
Qed.

Lemma contains_spec pat : forall s,
  contains pat s = true <-> occurs_in pat s.
Proof.
  unfold occurs_in.
  induction s as [|c s IH]; cbn [contains];
    rewrite orb_true_iff, starts_with_spec.
  - split.
    + intros [[b Hb]|H]; [|discriminate]. exists [], b. exact Hb.
    + intros (a & b & H). left.
      destruct a; [eauto|discriminate].
  - rewrite IH. split.
    + intros [[b Hb]|(a & b & ->)].
      * exists [], b. exact Hb.
      * exists (c :: a), b. reflexivity.
    + intros (a & b & H). destruct a as [|x a]; simpl in H.
      * left. eauto.
      * right. injection H as -> ->. eauto.
Qed.

Lemma ends_with_spec s suf :
  ends_with s suf = true <-> exists a, s = a ++ suf.
Proof.
  unfold ends_with. rewrite starts_with_spec. split.
  - intros [b Hb]. exists (rev b).
    rewrite <- (rev_involutive s), Hb, rev_app_distr, rev_involutive.
    reflexivity.
  - intros [a ->]. exists (rev a). apply rev_app_distr.
Qed.

Lemma lower_app s1 s2 : lower (s1 ++ s2) = lower s1 ++ lower s2.
Proof. apply map_app. Qed.

Lemma lower_length s : length (lower s) = length s.
Proof. apply length_map. Qed.

(** The lowered string ends with [suf] exactly when the string ends with
    a block that lowers to [suf]. *)
Lemma ends_with_lower s suf :
  ends_with (lower s) suf = true <->
  exists base suffix, s = base ++ suffix /\ lower suffix = suf.
Proof.
  rewrite ends_with_spec. split.
  - intros [a Ha]. unfold lower in Ha. apply map_eq_app in Ha.
    destruct Ha as (l1 & l2 & -> & _ & H2). eauto.
  - intros (base & suffix & -> & <-). exists (lower base). apply lower_app.
Qed.

Lemma drop_last_app base suffix n :
  length suffix = n -> drop_last n (base ++ suffix) = base.
Proof.
  intros <-. unfold drop_last. rewrite length_app.
  replace (length base + length suffix - length suffix)%nat
    with (length base) by lia.
  apply take_app_length.
Qed.

Lemma contains_char c s : contains [c] s = true <-> c ∈ s.
Proof.
  rewrite contains_spec. unfold occurs_in. split.
  - intros (a & b & ->). apply elem_of_app. right. left.
  - intros H. apply list_elem_of_split in H. destruct H as (a & b & ->).
    exists a, b. reflexivity.
Qed.

Lemma split_on_no_sep sep s : sep ∉ s -> split_on sep s = (s, []).
Proof.
  induction s as [|c s IH]; intros Hs; [reflexivity|].
  simpl. rewrite IH by (intros H; apply Hs; right; exact H).
  destruct (N.eqb_spec c sep) as [->|Hne]; [|reflexivity].
  exfalso. apply Hs. left.
Qed.

Lemma split_on_last sep seg : sep ∉ seg -> forall before,
  exists first segs,
    split_on sep (before ++ sep :: seg) = (first, segs) /\ last segs = Some seg.
Proof.
  intros Hseg. induction before as [|c before IH]; simpl.
  - rewrite split_on_no_sep by assumption. rewrite N.eqb_refl.
    exists [], [seg]. split; reflexivity.
  - destruct IH as (first & segs & -> & Hlast).
    destruct (c =? sep)%N.
    + exists [], (first :: segs). split; [reflexivity|].
      destruct segs; [discriminate|exact Hlast].
    + exists (c :: first), segs. split; [reflexivity|exact Hlast].
Qed.

(** Every string either has no separator, or splits at its last one. *)
Lemma last_sep_cases sep s :
  sep ∉ s \/ exists before seg, s = before ++ sep :: seg /\ sep ∉ seg.
Proof.
  induction s as [|c s IH].
  - left. apply not_elem_of_nil.
  - destruct IH as [Hno|(before & seg & -> & Hseg)].
    + destruct (N.eq_dec c sep) as [->|Hne].
      * right. exists [], s. split; [reflexivity|assumption].
      * left. rewrite elem_of_cons. intros [H|H]; [congruence|tauto].
    + right. exists (c :: before), seg. split; [reflexivity|assumption].
Qed.

(** What line 157 computes is the trailing segment. *)
Lemma name_part_trailing_segment sn seg :
  trailing_segment sn seg ->
  (if contains (u "-") sn then default [] (last (split 45%N sn)) else sn) = seg.
Proof.
  change (u "-") with [45%N].
  intros [[Hno ->]|(before & -> & Hseg)].
  - destruct (contains [45%N] sn) eqn:Hc; [|reflexivity].
    apply contains_char in Hc. contradiction.
  - assert (contains [45%N] (before ++ 45%N :: seg) = true) as ->.
    { apply contains_char, elem_of_app. right. left. }
    unfold split.
    destruct (split_on_last 45%N seg Hseg before) as (first & segs & -> & Hl).
    destruct segs as [|x segs]; [discriminate|].
    change (last (first :: x :: segs)) with (last (x :: segs)).
    rewrite Hl. reflexivity.
Qed.

Lemma trailing_segment_exists sn : exists seg, trailing_segment sn seg.
Proof.
  destruct (last_sep_cases 45%N sn) as [Hno|(before & seg & -> & Hseg)].
  - exists sn. left. auto.
  - exists seg. right. eauto.
Qed.

(** What lines 158-162 compute is the display name. *)
Lemma display_name_computed seg :
  display_name seg
    (if ends_with (lower seg) (u "neural")
     then drop_last 6 seg ++ u " (Neural)"
     else seg).
Proof.
  destruct (ends_with (lower seg) (u "neural")) eqn:He.
  - apply ends_with_lower in He. destruct He as (base & suffix & -> & Hs).
    left. exists base, suffix. split; [reflexivity|]. split; [assumption|].
    rewrite drop_last_app; [reflexivity|].
    rewrite <- lower_length, Hs. reflexivity.
  - right. split; [|reflexivity]. intros base suffix -> Hs.
    assert (ends_with (lower (base ++ suffix)) (u "neural") = true) as Ht
      by (apply ends_with_lower; eauto).
    congruence.
Qed.

Lemma lstrip_cases s :
  lstrip s = [] \/ exists c t, lstrip s = c :: t /\ is_space c = false.
Proof.
  induction s as [|c s IH]; simpl; [auto|].
  destruct (is_space c) eqn:Hc; [exact IH|]. right. eauto.
Qed.

Lemma lstrip_empty s : lstrip s = [] <-> Forall (fun c => is_space c = true) s.
Proof.
  induction s as [|c s IH]; simpl.
  - split; auto.
  - destruct (is_space c) eqn:Hc.
    + rewrite IH. split; [auto|]. intros H. inversion H; assumption.
    + split; [discriminate|]. intros H. inversion H; congruence.
Qed.

(** A text is empty after trimming exactly when all of it is white
    space. *)
Lemma strip_empty s : strip s = [] <-> Forall (fun c => is_space c = true) s.
Proof.
  unfold strip, rstrip. split.
  - intros H. apply lstrip_empty.
    destruct (lstrip_cases s) as [Hl|(c & t & Hl & Hc)]; [exact Hl|].
    exfalso. rewrite Hl in H.
    assert (lstrip (rev (c :: t)) = []) as Hr.
    { rewrite <- (rev_involutive (lstrip (rev (c :: t)))), H. reflexivity. }
    apply lstrip_empty in Hr.
    assert (is_space c = true); [|congruence].
    rewrite Forall_forall in Hr. apply Hr.
    apply list_elem_of_In, in_rev. rewrite rev_involutive. left. reflexivity.
  - intros H. apply lstrip_empty in H. rewrite H. reflexivity.
Qed.

End Strings.

(** ** Theorems on labels and the default voice *)

(** C5 (as the code has it): for a descriptor with string fields the label
    is the display name, the locale and the gender separated by dashes; the
    display name is the part of the short name after its last hyphen, and
    when that part ends with neural in any letter case its last six
    characters are replaced by (Neural) after a space. The Jenny voice of
    en-US is labelled Jenny (Neural), en-US, Female. *)
Theorem nice_label_spec (v : voice) (sn loc g : str) :
  descriptor v sn loc g ->
  (exists seg display,
     trailing_segment sn seg /\ display_name seg display /\
     nice_label v = Ok (label_of display loc g)) /\
  nice_label jenny_voice =
    Ok (u "Jenny (Neural)" ++ dash_sep ++ u "en-US" ++ dash_sep ++ u "Female").
Proof.
  intros (Hsn & Hloc & Hg). split; [|vm_compute; reflexivity].
  destruct (trailing_segment_exists sn) as [seg Hseg].
  exists seg.
  exists (if ends_with (lower seg) (u "neural")
          then drop_last 6 seg ++ u " (Neural)" else seg).
  split; [assumption|]. split; [apply display_name_computed|].
  unfold nice_label, dict_get. rewrite Hsn, Hloc, Hg. cbn [default from_option py_format id].
  rewrite (name_part_trailing_segment sn seg Hseg). reflexivity.
Qed.

Lemma nice_label_spec_witness :
  descriptor jenny_voice (u "en-US-JennyNeural") (u "en-US") (u "Female") /\
  exists seg display,
    trailing_segment (u "en-US-JennyNeural") seg /\ display_name seg display /\
    nice_label jenny_voice = Ok (label_of display (u "en-US") (u "Female")).
Proof.
  assert (descriptor jenny_voice (u "en-US-JennyNeural") (u "en-US") (u "Female"))
    as Hd by (repeat split; vm_compute; reflexivity).
  split; [exact Hd|].
  exact (proj1 (nice_label_spec jenny_voice _ _ _ Hd)).
Defined.

(** C5 as the specification words it fails: a short name that ends in
    NEURAL in capitals still gets the (Neural) display name, while a
    comparison with letter case would leave the segment as it is. *)
Lemma nice_label_not_case_sensitive :
  descriptor shouting_voice (u "en-US-GuyNEURAL") (u "en-US") (u "Male") /\
  nice_label shouting_voice =
    Ok (u "Guy (Neural)" ++ dash_sep ++ u "en-US" ++ dash_sep ++ u "Male") /\
  label_case_sensitive (u "en-US-GuyNEURAL") (u "en-US") (u "Male") =
    u "GuyNEURAL" ++ dash_sep ++ u "en-US" ++ dash_sep ++ u "Male" /\
  nice_label shouting_voice <>
    Ok (label_case_sensitive (u "en-US-GuyNEURAL") (u "en-US") (u "Male")).
Proof.
  split; [repeat split; vm_compute; reflexivity|].
  split; [vm_compute; reflexivity|].
  split; [vm_compute; reflexivity|].
  vm_compute. discriminate.
Qed.

Section DefaultLabel.

Implicit Types (keys : list str) (pat key : str).

Lemma first_containing_Some pat keys key :
  first_containing pat keys = Some key -> first_with (mentions pat) keys key.
Proof.
  unfold first_with, mentions.
  induction keys as [|k keys IH]; simpl; [discriminate|].
  destruct (contains pat (lower k)) eqn:Hc.
  - intros [= ->]. exists [], keys. split; [reflexivity|].
    split; [apply contains_spec; assumption|constructor].
  - intros H. destruct (IH H) as (before & after & -> & HP & Hb).
    exists (k :: before), after. split; [reflexivity|]. split; [assumption|].
    constructor; [|assumption].
    intros Hk. apply contains_spec in Hk. congruence.
Qed.

Lemma first_containing_None pat keys :
  first_containing pat keys = None ->
  Forall (fun k => ~ mentions pat k) keys.
Proof.
  unfold mentions.
  induction keys as [|k keys IH]; simpl; [constructor|].
  destruct (contains pat (lower k)) eqn:Hc; [discriminate|].
  intros H. constructor; [|auto].
  intros Hk. apply contains_spec in Hk. congruence.
Qed.

End DefaultLabel.

(** C6: on a non-empty mapping the default selection returns a label: the
    first, in iteration order, whose lower-case form contains jenny; without
    one, the first that contains aria; without either, the first label. *)
Theorem default_label_spec (voice_map : pydict) :
  voice_map <> [] ->
  exists label,
    default_label voice_map = Ok label /\
    let keys := dict_keys voice_map in
    first_with (mentions (u "jenny")) keys label \/
    (Forall (fun k => ~ mentions (u "jenny") k) keys /\
     first_with (mentions (u "aria")) keys label) \/
    (Forall (fun k => ~ mentions (u "jenny") k) keys /\
     Forall (fun k => ~ mentions (u "aria") k) keys /\
     head keys = Some label).
Proof.
  intros Hne. unfold default_label. cbv zeta.
  destruct (first_containing (u "jenny") (dict_keys voice_map)) as [k|] eqn:Hj.
  - exists k. split; [reflexivity|]. left. apply first_containing_Some, Hj.
  - apply first_containing_None in Hj.
    destruct (first_containing (u "aria") (dict_keys voice_map)) as [k|] eqn:Ha.
    + exists k. split; [reflexivity|]. right. left.
      split; [assumption|]. apply first_containing_Some, Ha.
    + apply first_containing_None in Ha.
      destruct voice_map as [|[k v] rest]; [congruence|].
      exists k. split; [reflexivity|]. right. right. auto.
Qed.

Lemma default_label_spec_witness :
  [(u "Guy (Neural)", shouting_voice); (u "Jenny (Neural)", jenny_voice)] <> [] /\
  default_label
    [(u "Guy (Neural)", shouting_voice); (u "Jenny (Neural)", jenny_voice)] =
  Ok (u "Jenny (Neural)").
Proof.
  split; [discriminate|].
  destruct (default_label_spec
              [(u "Guy (Neural)", shouting_voice); (u "Jenny (Neural)", jenny_voice)]
              ltac:(discriminate)) as (label & Hl & _).
  rewrite Hl. vm_compute in Hl. injection Hl as <-. reflexivity.
Defined.


(** The catalog steps in sequence on a two-voice catalog: filter, label,
    choose the default. *)
Example default_label_pipeline :
  res_bind
    (build_voice_map
       (filter_voice_list [shouting_voice; jenny_voice] (PStr (u "en-US")) false)
       [])
    default_label =
  Ok (u "Jenny (Neural)" ++ dash_sep ++ u "en-US" ++ dash_sep ++ u "Female").
Proof. vm_compute. reflexivity. Qed.

(** ** Lemmas on the generate handler *)

Section Handler.

Variable svc : service.
Implicit Types (i : inputs) (w : world).

Lemma generate_handler_blank i w :
  strip (text i) = [] ->
  generate_handler svc i w =
    (Raise StopException,
     {| busy := busy w; effects := effects w ++ [Warning msg_enter_text] |}).
Proof.
  intros Hb.
  unfold generate_handler, generate_block, emit, st_stop, request_stop,
    yield_point, raise, bind.
  rewrite bool_decide_eq_true_2 by assumption. reflexivity.
Qed.

(** The run of the handler past the empty-text guard, exit by exit. On the
    exit through [st.stop()] the write of the [finally] raises at the
    pending stop, so the flag keeps the value the block gave it. *)
Lemma generate_handler_run i w :
  strip (text i) <> [] ->
  generate_handler svc i w =
    match dict_getitem (voice_map i) (voice_choice i) with
    | Raise e => (Raise e, released w [])
    | Ok v =>
        match pct_to_edge_rate (rate_slider i) with
        | Raise e => (Raise e, released w [])
        | Ok rate_str =>
            match volume_to_edge (volume i) with
            | Raise e => (Raise e, released w [])
            | Ok volume_str =>
                let voice_short := dict_get v (u "ShortName") PNone in
                let call :=
                  Synthesize (text i) voice_short rate_str volume_str true in
                match svc (text i) voice_short rate_str volume_str with
                | SynthRaises => (Raise ServiceError, released w [call])
                | SynthWrote audio =>
                    if (length audio <? 2000)%nat
                    then (Raise StopException,
                          {| busy := true;
                             effects := effects w ++
                               [call; Error msg_audio_empty] |})
                    else (Ok tt,
                          released w
                            [call; Success msg_generated;
                             Audio audio (u "audio/mp3");
                             DownloadButton (u "Download Audio") audio
                               (filename i) (u "audio/mpeg")])
                end
            end
        end
    end.
Proof.
  intros Hb.
  unfold generate_handler, generate_block, try_finally, lift, synthesize,
    emit, set_busy, st_stop, request_stop, yield_point, raise, ret, released,
    bind.
  rewrite bool_decide_eq_false_2 by assumption.
  cbn [the_world stop_requested busy effects].
  destruct (dict_getitem (voice_map i) (voice_choice i)) as [v|e];
    [|cbn [the_world stop_requested busy effects]; rewrite app_nil_r;
      reflexivity].
  destruct (pct_to_edge_rate (rate_slider i)) as [rate_str|e];
    [|cbn [the_world stop_requested busy effects]; rewrite app_nil_r;
      reflexivity].
  destruct (volume_to_edge (volume i)) as [volume_str|e];
    [|cbn [the_world stop_requested busy effects]; rewrite app_nil_r;
      reflexivity].
  cbn [the_world stop_requested busy effects]. cbv zeta.
  destruct (svc (text i) (dict_get v (u "ShortName") PNone) rate_str volume_str)
    as [|audio]; [reflexivity|].
  destruct (length audio <? 2000)%nat;
    cbn [the_world stop_requested busy effects];
    repeat rewrite <- app_assoc; reflexivity.
Qed.

(** Every run extends the log, and calls the service only with the flag
    raised. *)
Lemma generate_handler_effects i w :
  exists new,
    effects (snd (generate_handler svc i w)) = effects w ++ new /\
    Forall called_while_busy new.
Proof.
  destruct (decide (strip (text i) = [])) as [Hblank|Hb].
  { rewrite generate_handler_blank by assumption.
    eexists. split; [reflexivity|]. repeat constructor. }
  rewrite generate_handler_run by assumption. unfold released.
  destruct (dict_getitem (voice_map i) (voice_choice i)) as [v|e];
    [|exists []; split; [reflexivity|constructor]].
  destruct (pct_to_edge_rate (rate_slider i)) as [rate_str|e];
    [|exists []; split; [reflexivity|constructor]].
  destruct (volume_to_edge (volume i)) as [volume_str|e];
    [|exists []; split; [reflexivity|constructor]].
  cbv zeta.
  destruct (svc (text i) (dict_get v (u "ShortName") PNone) rate_str volume_str)
    as [|audio].
  { eexists. split; [reflexivity|]. repeat constructor. }
  destruct (length audio <? 2000)%nat;
    (eexists; split; [reflexivity|]); repeat constructor.
Qed.

Lemma on_rerun_not_pressed i w : on_rerun false svc i w = (Ok tt, w).
Proof. reflexivity. Qed.

End Handler.

(** ** Theorems on the generate action *)

(** C7: when the text is empty after trimming, the generate action stops
    right after the warning: the synthesis service is not called, and a
    busy flag that was down stays down. *)
Theorem empty_text_aborts (svc : service) (i : inputs) (w : world) :
  strip (text i) = [] ->
  busy w = false ->
  let '(r, w') := generate_handler svc i w in
  r = Raise StopException /\
  effects w' = effects w ++ [Warning msg_enter_text] /\
  (forall ev, ev ∈ effects w' -> is_call ev -> ev ∈ effects w) /\
  busy w' = false.
Proof.
  intros Hblank Hidle. rewrite generate_handler_blank by assumption.
  split; [reflexivity|]. split; [reflexivity|]. split; [|exact Hidle].
  cbn [effects]. intros ev Hev Hcall. apply elem_of_app in Hev.
  destruct Hev as [Hev|Hev]; [exact Hev|].
  apply list_elem_of_singleton in Hev. subst ev. contradiction.
Qed.

Lemma empty_text_aborts_witness :
  strip (text (example_inputs (u "   "))) = [] /\
  busy idle = false /\
  let '(r, w') :=
    generate_handler (service_writing 5000) (example_inputs (u "   ")) idle in
  r = Raise StopException /\
  effects w' = effects idle ++ [Warning msg_enter_text] /\
  (forall ev, ev ∈ effects w' -> is_call ev -> ev ∈ effects idle) /\
  busy w' = false.
Proof.
  split; [reflexivity|]. split; [reflexivity|].
  apply (empty_text_aborts (service_writing 5000) (example_inputs (u "   ")) idle);
    reflexivity.
Defined.

(** C8: after the synthesis call, audio shorter than 2000 bytes makes the
    action stop with the error message: the run ends with StopException,
    the log gains the call and the error and nothing else, so nothing is
    played or offered for download (and the busy flag is still up, since
    the stop of the run is what ends it). Audio of 2000 bytes or more is
    accepted: the run ends normally, the success message is shown, and the
    same bytes go to the player and to the download button. *)
Theorem short_audio_rejected (svc : service) (i : inputs) (w : world)
    (v : voice) (rate_str volume_str : str) (audio : list Byte.byte) :
  strip (text i) <> [] ->
  dict_getitem (voice_map i) (voice_choice i) = Ok v ->
  pct_to_edge_rate (rate_slider i) = Ok rate_str ->
  volume_to_edge (volume i) = Ok volume_str ->
  svc (text i) (dict_get v (u "ShortName") PNone) rate_str volume_str =
    SynthWrote audio ->
  let call :=
    Synthesize (text i) (dict_get v (u "ShortName") PNone) rate_str volume_str
      true in
  ((length audio < 2000)%nat ->
   generate_handler svc i w =
     (Raise StopException,
      {| busy := true;
         effects := effects w ++ [call; Error msg_audio_empty] |})) /\
  ((2000 <= length audio)%nat ->
   generate_handler svc i w =
     (Ok tt,
      {| busy := false;
         effects := effects w ++
           [call; Success msg_generated; Audio audio (u "audio/mp3");
            DownloadButton (u "Download Audio") audio (filename i)
              (u "audio/mpeg")] |})).
Proof.
  intros Hb Hv Hr Hvol Hs call.
  rewrite generate_handler_run by assumption.
  rewrite Hv, Hr, Hvol. cbv zeta. rewrite Hs. fold call.
  split; intros Hlen.
  - apply Nat.ltb_lt in Hlen. rewrite Hlen. reflexivity.
  - apply Nat.ltb_ge in Hlen. rewrite Hlen. reflexivity.
Qed.

Lemma short_audio_rejected_witness :
  generate_handler (service_writing 1999) (example_inputs (u "Hello world"))
    idle =
    (Raise StopException,
     {| busy := true;
        effects :=
          [Synthesize (u "Hello world") (PStr (u "en-US-JennyNeural"))
             (u "+3%") (u "+0%") true;
           Error msg_audio_empty] |}) /\
  fst (generate_handler (service_writing 2000) (example_inputs (u "Hello world"))
         idle) = Ok tt.
Proof.
  split.
  - destruct (short_audio_rejected (service_writing 1999)
                (example_inputs (u "Hello world")) idle jenny_voice
                (u "+3%") (u "+0%") (repeat Byte.x00 1999)
                ltac:(vm_compute; discriminate) ltac:(vm_compute; reflexivity)
                ltac:(vm_compute; reflexivity) ltac:(vm_compute; reflexivity)
                ltac:(reflexivity)) as [Hshort _].
    rewrite Hshort; [reflexivity|]. rewrite repeat_length. lia.
  - destruct (short_audio_rejected (service_writing 2000)
                (example_inputs (u "Hello world")) idle jenny_voice
                (u "+3%") (u "+0%") (repeat Byte.x00 2000)
                ltac:(vm_compute; discriminate) ltac:(vm_compute; reflexivity)
                ltac:(vm_compute; reflexivity) ltac:(vm_compute; reflexivity)
                ltac:(reflexivity)) as [_ Hlong].
    rewrite Hlong; [reflexivity|]. rewrite repeat_length. lia.
Defined.

(** C9 (code bug): the flag is raised before the call, but it is not
    lowered on every exit. Past the empty-text guard, the action ends with
    the busy flag still up exactly when the service wrote fewer than 2000
    bytes: [st.stop()] inside the [try] leaves the stop pending, so the
    write in the [finally] raises before it stores. On the other exits
    (success, KeyError, an exception of the mapping or of the service) the
    flag is down afterwards; and whenever the service is called the flag is
    up. *)
Theorem busy_flag_stuck_on_short_audio (svc : service) (i : inputs)
    (w : world) :
  strip (text i) <> [] ->
  let w' := snd (generate_handler svc i w) in
  (busy w' = true <->
   exists v rate_str volume_str audio,
     dict_getitem (voice_map i) (voice_choice i) = Ok v /\
     pct_to_edge_rate (rate_slider i) = Ok rate_str /\
     volume_to_edge (volume i) = Ok volume_str /\
     svc (text i) (dict_get v (u "ShortName") PNone) rate_str volume_str =
       SynthWrote audio /\
     (length audio < 2000)%nat) /\
  exists new, effects w' = effects w ++ new /\ Forall called_while_busy new.
Proof.
  intros Hb. cbv zeta. split; [|apply generate_handler_effects].
  rewrite generate_handler_run by assumption.
  destruct (dict_getitem (voice_map i) (voice_choice i)) as [v|e].
  2:{ simpl. split; [discriminate|].
      intros (? & ? & ? & ? & H & _). discriminate. }
  destruct (pct_to_edge_rate (rate_slider i)) as [rate_str|e].
  2:{ simpl. split; [discriminate|].
      intros (? & ? & ? & ? & _ & H & _). discriminate. }
  destruct (volume_to_edge (volume i)) as [volume_str|e].
  2:{ simpl. split; [discriminate|].
      intros (? & ? & ? & ? & _ & _ & H & _). discriminate. }
  cbv zeta.
  destruct (svc (text i) (dict_get v (u "ShortName") PNone) rate_str volume_str)
    as [|audio] eqn:Hs.
  { simpl. split; [discriminate|].
    intros (v' & r' & vol' & a' & [= <-] & [= <-] & [= <-] & H & _).
    congruence. }
  destruct (Nat.ltb_spec (length audio) 2000) as [Hlt|Hge]; simpl.
  - split; [|reflexivity]. intros _.
    exists v, rate_str, volume_str, audio. auto.
  - split; [discriminate|].
    intros (v' & r' & vol' & a' & [= <-] & [= <-] & [= <-] & H & Hlen).
    assert (a' = audio) as -> by congruence. lia.
Qed.

Lemma busy_flag_stuck_on_short_audio_witness :
  busy idle = false /\
  strip (text (example_inputs (u "Hello world"))) <> [] /\
  busy (snd (generate_handler (service_writing 1999)
               (example_inputs (u "Hello world")) idle)) = true.
Proof.
  split; [reflexivity|]. split; [vm_compute; discriminate|].
  apply (proj1 (busy_flag_stuck_on_short_audio (service_writing 1999)
                  (example_inputs (u "Hello world")) idle
                  ltac:(vm_compute; discriminate))).
  exists jenny_voice, (u "+3%"), (u "+0%"), (repeat Byte.x00 1999).
  split; [vm_compute; reflexivity|]. split; [vm_compute; reflexivity|].
  split; [vm_compute; reflexivity|]. split; [reflexivity|].
  rewrite repeat_length. lia.
Defined.
(** ** Further properties of the voice filter *)

Section FilterMore.

Implicit Types (v : voice) (voices : list voice) (pl : pyval) (pf : bool).

Lemma filter_empty_Forall (P : voice -> Prop) `{!forall v, Decision (P v)} voices :
  filter P voices = [] <-> Forall (fun v => ~ P v) voices.
Proof.
  induction voices as [|v rest IH]; [split; [constructor|reflexivity]|].
  rewrite filter_cons. destruct (decide (P v)) as [Hp|Hp].
  - split; [discriminate|]. intros Hall. inversion Hall; contradiction.
  - rewrite IH. split; [constructor; assumption|].
    intros Hall. inversion Hall; assumption.
Qed.

Lemma filter_same (P : voice -> Prop) `{!forall v, Decision (P v)} voices :
  filter P (filter P voices) = filter P voices.
Proof.
  rewrite list_filter_filter. apply list_filter_iff. tauto.
Qed.

End FilterMore.

(** X1: whatever the preferences, the voices returned are voices of the
    catalog, in catalog order, none of them repeated or added. *)
Theorem filter_voice_list_sublist (voices : list voice) (prefer_lang : pyval)
    (prefer_female : bool) :
  sublist (filter_voice_list voices prefer_lang prefer_female) voices.
Proof.
  rewrite filter_voice_list_cascade.
  destruct (filter (primary_match prefer_lang prefer_female) voices)
    as [|p ps] eqn:Hp.
  - destruct (truthy prefer_lang).
    + destruct (filter (has_locale prefer_lang) voices) as [|q qs] eqn:Hq.
      * reflexivity.
      * rewrite <- Hq. apply sublist_filter.
    + destruct voices; reflexivity.
  - rewrite <- Hp. apply sublist_filter.
Qed.

(** X2: filtering an already filtered list with the same preferences changes
    nothing. *)
Theorem filter_voice_list_idempotent (voices : list voice) (prefer_lang : pyval)
    (prefer_female : bool) :
  filter_voice_list (filter_voice_list voices prefer_lang prefer_female)
    prefer_lang prefer_female =
  filter_voice_list voices prefer_lang prefer_female.
Proof.
  rewrite (filter_voice_list_cascade voices).
  destruct (filter (primary_match prefer_lang prefer_female) voices)
    as [|p ps] eqn:Hp.
  - destruct (truthy prefer_lang) eqn:Ht.
    + destruct (filter (has_locale prefer_lang) voices) as [|q qs] eqn:Hq.
      * rewrite filter_voice_list_cascade, Hp, Ht, Hq. reflexivity.
      * rewrite <- Hq. rewrite filter_voice_list_cascade.
        assert (filter (primary_match prefer_lang prefer_female)
                  (filter (has_locale prefer_lang) voices) = []) as ->.
        { rewrite list_filter_filter. apply filter_empty_Forall.
          apply filter_empty_Forall in Hp.
          eapply Forall_impl; [exact Hp|]. simpl. tauto. }
        rewrite Ht, filter_same, Hq. reflexivity.
    + destruct voices as [|v rest];
        rewrite filter_voice_list_cascade, Hp, Ht; reflexivity.
  - rewrite <- Hp. rewrite filter_voice_list_cascade, filter_same, Hp.
    reflexivity.
Qed.

(** X3: when a locale is given and the catalog has a voice of that locale,
    every voice returned has that locale, also when no voice of the locale
    is female: the fallback gives up the gender before the language. *)
Theorem filter_voice_list_keeps_locale (voices : list voice) (prefer_lang : pyval)
    (prefer_female : bool) :
  locale_given prefer_lang ->
  (exists v, v ∈ voices /\ has_locale prefer_lang v) ->
  Forall (has_locale prefer_lang)
    (filter_voice_list voices prefer_lang prefer_female).
Proof.
  intros Hgiven (v & Hin & Hloc). rewrite filter_voice_list_cascade.
  destruct (filter (primary_match prefer_lang prefer_female) voices)
    as [|p ps] eqn:Hp.
  - unfold locale_given in Hgiven. rewrite Hgiven.
    destruct (filter (has_locale prefer_lang) voices) as [|q qs] eqn:Hq.
    + exfalso. apply filter_empty_Forall in Hq.
      rewrite Forall_forall in Hq. exact (Hq v Hin Hloc).
    + rewrite <- Hq. apply Forall_forall. intros x Hx.
      apply list_elem_of_filter in Hx. tauto.
  - rewrite <- Hp. apply Forall_forall. intros x Hx.
    apply list_elem_of_filter in Hx. destruct Hx as [[Hl _] _]. auto.
Qed.

Lemma filter_voice_list_keeps_locale_witness :
  locale_given (PStr (u "en-US")) /\
  (exists v, v ∈ [shouting_voice] /\ has_locale (PStr (u "en-US")) v) /\
  Forall (has_locale (PStr (u "en-US")))
    (filter_voice_list [shouting_voice] (PStr (u "en-US")) true).
Proof.
  assert (exists v, v ∈ [shouting_voice] /\ has_locale (PStr (u "en-US")) v) as Hex.
  { exists shouting_voice. split; [left|vm_compute; reflexivity]. }
  split; [reflexivity|]. split; [exact Hex|].
  apply (filter_voice_list_keeps_locale [shouting_voice] (PStr (u "en-US")) true);
    [reflexivity|exact Hex].
Defined.

(** ** Lemmas on the label dictionary *)

Section Dict.

Implicit Types (d acc : pydict) (k key : str) (v : voice) (vs : list voice).

Lemma dict_keys_set d k v :
  dict_keys (dict_set d k v) =
    if decide (k ∈ dict_keys d) then dict_keys d else dict_keys d ++ [k].
Proof.
  unfold dict_keys. induction d as [|[k' v'] d IH]; csimpl.
  - destruct (decide (k ∈ [])) as [Hin|_]; [inversion Hin|reflexivity].
  - destruct (decide (k' = k)) as [->|Hne]; csimpl.
    + rewrite decide_True by left. reflexivity.
    + rewrite IH. destruct (decide (k ∈ d.*1)) as [Hin|Hin].
      * rewrite decide_True by (right; exact Hin). reflexivity.
      * rewrite decide_False; [reflexivity|].
        rewrite elem_of_cons. intros [->|H]; [congruence|contradiction].
Qed.

Lemma dict_getitem_set_eq d k v : dict_getitem (dict_set d k v) k = Ok v.
Proof.
  induction d as [|[k' v'] d IH]; simpl.
  - rewrite decide_True by reflexivity. reflexivity.
  - destruct (decide (k' = k)) as [->|Hne]; simpl.
    + rewrite decide_True by reflexivity. reflexivity.
    + rewrite decide_False by assumption. exact IH.
Qed.

Lemma dict_getitem_set_ne d k v key :
  k <> key -> dict_getitem (dict_set d k v) key = dict_getitem d key.
Proof.
  intros Hne. induction d as [|[k' v'] d IH]; simpl.
  - rewrite decide_False by assumption. reflexivity.
  - destruct (decide (k' = k)) as [->|Hk]; simpl.
    + rewrite !decide_False by assumption. reflexivity.
    + destruct (decide (k' = key)); [reflexivity|exact IH].
Qed.

(** [d[key]] raises KeyError exactly when [key] is not a key. *)
Lemma dict_getitem_key d key :
  (key ∈ dict_keys d -> exists v, dict_getitem d key = Ok v /\ (key, v) ∈ d) /\
  (key ∉ dict_keys d -> dict_getitem d key = Raise KeyError).
Proof.
  unfold dict_keys. induction d as [|[k' v'] d [IHin IHout]]; csimpl.
  - split; [intros H; inversion H|reflexivity].
  - destruct (decide (k' = key)) as [->|Hne].
    + split; [|intros H; exfalso; apply H; left].
      intros _. exists v'. split; [reflexivity|left].
    + split.
      * rewrite elem_of_cons. intros [->|Hin]; [congruence|].
        destruct (IHin Hin) as (v & Hv & Hel). exists v.
        split; [exact Hv|right; exact Hel].
      * rewrite not_elem_of_cons. intros [_ Hout]. auto.
Qed.

Lemma list_index_found (l : list str) (x : str) :
  x ∈ l ->
  exists n, list_index l x = Ok n /\ l !! n = Some x /\
            forall j, (j < n)%nat -> l !! j <> Some x.
Proof.
  induction l as [|y l IH]; intros Hin; [inversion Hin|].
  simpl. destruct (decide (y = x)) as [->|Hne].
  - exists 0%nat. split; [reflexivity|]. split; [reflexivity|]. lia.
  - apply elem_of_cons in Hin. destruct Hin as [->|Hin]; [congruence|].
    destruct (IH Hin) as (n & -> & Hn & Hfirst). exists (S n).
    split; [reflexivity|]. split; [exact Hn|].
    intros [|j] Hj; simpl; [congruence|]. apply Hfirst. lia.
Qed.

Lemma first_occurrences_elem (l : list str) (x : str) :
  x ∈ first_occurrences l <-> x ∈ l.
Proof.
  induction l as [|y l IH]; simpl; [reflexivity|].
  rewrite !elem_of_cons, list_elem_of_filter, IH.
  destruct (decide (x = y)); tauto.
Qed.

Lemma first_occurrences_NoDup (l : list str) : NoDup (first_occurrences l).
Proof.
  induction l as [|y l IH]; simpl; constructor.
  - rewrite list_elem_of_filter. tauto.
  - apply NoDup_filter, IH.
Qed.

Lemma filter_all (l : list str) : filter (fun y => y ∉ @nil str) l = l.
Proof.
  induction l as [|y l IH]; [reflexivity|].
  rewrite filter_cons_True by apply not_elem_of_nil. rewrite IH. reflexivity.
Qed.

(** [nice_label] raises only for a short name that is [None], and then
    TypeError. *)
Lemma nice_label_total v :
  (short_name_usable v -> exists label, nice_label v = Ok label) /\
  (~ short_name_usable v -> nice_label v = Raise TypeError).
Proof.
  unfold short_name_usable, nice_label, dict_get.
  destruct (v !! u "ShortName") as [[|sn]|]; simpl.
  - split; [congruence|reflexivity].
  - split; [eauto|]. intros H. exfalso. apply H. discriminate.
  - split; [eauto|]. intros H. exfalso. apply H. discriminate.
Qed.

(** The keys after the comprehension: the keys before, then the new
    labels, each once, in the order they first occur. *)
Lemma build_voice_map_keys vs : forall labels acc,
  Forall2 (fun v label => nice_label v = Ok label) vs labels ->
  exists d,
    build_voice_map vs acc = Ok d /\
    dict_keys d =
      dict_keys acc ++
      filter (fun y => y ∉ dict_keys acc) (first_occurrences labels).
Proof.
  induction vs as [|v vs IH]; intros labels acc Hl.
  - inversion Hl; subst. exists acc. split; [reflexivity|].
    simpl. rewrite filter_nil, app_nil_r. reflexivity.
  - inversion Hl as [|? k ? ls Hk Hrest]; subst.
    destruct (IH ls (dict_set acc k v) Hrest) as (d & Hd & Hkeys).
    exists d. cbn [build_voice_map]. rewrite Hk. cbn [res_bind].
    split; [exact Hd|]. rewrite Hkeys, dict_keys_set.
    cbn [first_occurrences]. rewrite filter_cons.
    destruct (decide (k ∈ dict_keys acc)) as [Hin|Hin].
    + rewrite decide_False by (intros Hc; exact (Hc Hin)). f_equal.
      rewrite list_filter_filter. apply list_filter_iff.
      intros x. split; [|intros [Hx _]; exact Hx].
      intros Hx. split; [exact Hx|congruence].
    + rewrite decide_True by assumption. rewrite <- app_assoc. f_equal.
      simpl. f_equal. rewrite list_filter_filter. apply list_filter_iff.
      intros x. rewrite not_elem_of_app, list_elem_of_singleton. tauto.
Qed.

Lemma build_voice_map_app vs1 vs2 acc :
  build_voice_map (vs1 ++ vs2) acc =
    res_bind (build_voice_map vs1 acc) (build_voice_map vs2).
Proof.
  revert acc. induction vs1 as [|v vs1 IH]; intros acc; [reflexivity|].
  simpl. destruct (nice_label v) as [k|e]; simpl; [apply IH|reflexivity].
Qed.

(** Voices with other labels leave the entry of [key] as it is. *)
Lemma build_voice_map_other vs key : forall acc d,
  Forall (fun v => nice_label v <> Ok key) vs ->
  build_voice_map vs acc = Ok d ->
  dict_getitem d key = dict_getitem acc key.
Proof.
  induction vs as [|v vs IH]; intros acc d Hall Hd.
  - injection Hd as <-. reflexivity.
  - inversion Hall as [|? ? Hv Hrest]; subst. simpl in Hd.
    destruct (nice_label v) as [k|e]; [|discriminate]. simpl in Hd.
    rewrite (IH _ _ Hrest Hd). apply dict_getitem_set_ne. congruence.
Qed.

Lemma dict_set_Forall (P : str * voice -> Prop) acc k v :
  Forall P acc -> P (k, v) -> Forall P (dict_set acc k v).
Proof.
  intros Hacc Hkv. induction Hacc as [|[k' v'] acc Hx Hacc IH]; simpl.
  - constructor; [exact Hkv|constructor].
  - destruct (decide (k' = k)) as [->|Hne]; constructor; assumption.
Qed.

(** A property of the entries that holds for the accumulator and for every
    voice paired with its label holds for the whole result. *)
Lemma build_voice_map_Forall (P : str * voice -> Prop) vs : forall acc d,
  Forall P acc ->
  (forall v k, v ∈ vs -> nice_label v = Ok k -> P (k, v)) ->
  build_voice_map vs acc = Ok d ->
  Forall P d.
Proof.
  induction vs as [|v vs IH]; intros acc d Hacc Hvs Hd.
  - injection Hd as <-. exact Hacc.
  - simpl in Hd. destruct (nice_label v) as [k|e] eqn:Hk; [|discriminate].
    simpl in Hd. apply (IH (dict_set acc k v) d); [| |exact Hd].
    + apply dict_set_Forall; [exact Hacc|]. apply Hvs; [left|exact Hk].
    + intros v' k' Hin. apply Hvs. right. exact Hin.
Qed.

Lemma usable_labels vs :
  Forall short_name_usable vs ->
  exists labels, Forall2 (fun v label => nice_label v = Ok label) vs labels.
Proof.
  induction 1 as [|v vs Hv _ [labels IH]].
  - exists []. constructor.
  - destruct (proj1 (nice_label_total v) Hv) as [label Hl].
    exists (label :: labels). constructor; assumption.
Qed.

Lemma default_label_in_keys d label :
  default_label d = Ok label -> label ∈ dict_keys d.
Proof.
  unfold default_label.
  destruct (first_containing (u "jenny") (dict_keys d)) as [k|] eqn:Hj.
  - intros [= <-]. apply first_containing_Some in Hj.
    destruct Hj as (b & a & -> & _). apply elem_of_app. right. left.
  - destruct (first_containing (u "aria") (dict_keys d)) as [k|] eqn:Ha.
    + intros [= <-]. apply first_containing_Some in Ha.
      destruct Ha as (b & a & -> & _). apply elem_of_app. right. left.
    + destruct (dict_keys d) as [|k ks]; [discriminate|].
      intros [= <-]. left.
Qed.

Lemma default_label_nonempty d :
  d <> [] -> exists label, default_label d = Ok label.
Proof.
  intros Hne. unfold default_label.
  destruct (first_containing (u "jenny") (dict_keys d)); [eauto|].
  destruct (first_containing (u "aria") (dict_keys d)); [eauto|].
  destruct d as [|[k v] d]; [congruence|]. simpl. eauto.
Qed.

Lemma filter_voice_list_elem (voices : list voice) pl pf v :
  v ∈ filter_voice_list voices pl pf -> v ∈ voices.
Proof.
  rewrite filter_voice_list_cascade.
  destruct (filter (primary_match pl pf) voices) as [|p ps] eqn:Hp.
  - destruct (truthy pl).
    + destruct (filter (has_locale pl) voices) as [|q qs] eqn:Hq; [auto|].
      rewrite <- Hq, list_elem_of_filter. tauto.
    + destruct voices; auto.
  - rewrite <- Hp, list_elem_of_filter. tauto.
Qed.

Lemma filter_voice_list_not_nil (voices : list voice) pl pf :
  voices <> [] -> filter_voice_list voices pl pf <> [].
Proof.
  intros Hne. rewrite filter_voice_list_cascade.
  destruct (filter (primary_match pl pf) voices); [|discriminate].
  destruct (truthy pl).
  - destruct (filter (has_locale pl) voices); [assumption|discriminate].
  - destruct voices; [congruence|discriminate].
Qed.

End Dict.

(** ** Properties of the voice map and of the selection *)

(** X4: when no short name is [None], the voice map is built, and its keys
    are the labels of the voices, each once, in the order in which they
    first occur. *)
Theorem voice_map_keys (filtered : list voice) :
  Forall short_name_usable filtered ->
  exists labels voice_map,
    Forall2 (fun v label => nice_label v = Ok label) filtered labels /\
    build_voice_map filtered [] = Ok voice_map /\
    dict_keys voice_map = first_occurrences labels /\
    NoDup (dict_keys voice_map) /\
    (forall key, key ∈ dict_keys voice_map <->
                 exists v, v ∈ filtered /\ nice_label v = Ok key).
Proof.
  intros Hus. destruct (usable_labels filtered Hus) as [labels Hl].
  destruct (build_voice_map_keys filtered labels [] Hl) as (d & Hd & Hk).
  simpl in Hk. rewrite filter_all in Hk.
  exists labels, d. split; [exact Hl|]. split; [exact Hd|].
  split; [exact Hk|]. split; [rewrite Hk; apply first_occurrences_NoDup|].
  intros key. rewrite Hk, first_occurrences_elem. split.
  - intros Hin. apply list_elem_of_lookup in Hin. destruct Hin as [n Hn].
    destruct (Forall2_lookup_r _ _ _ _ _ Hl Hn) as (v & Hv & Hlab).
    exists v. split; [|exact Hlab]. eapply list_elem_of_lookup_2, Hv.
  - intros (v & Hin & Hlab). apply list_elem_of_lookup in Hin.
    destruct Hin as [n Hn].
    destruct (Forall2_lookup_l _ _ _ _ _ Hl Hn) as (k & Hk' & Hlab').
    assert (k = key) as -> by congruence.
    eapply list_elem_of_lookup_2, Hk'.
Qed.

Lemma voice_map_keys_witness :
  Forall short_name_usable [jenny_voice; shouting_voice; jenny_twin] /\
  exists labels voice_map,
    Forall2 (fun v label => nice_label v = Ok label)
      [jenny_voice; shouting_voice; jenny_twin] labels /\
    build_voice_map [jenny_voice; shouting_voice; jenny_twin] [] = Ok voice_map /\
    dict_keys voice_map = first_occurrences labels /\
    NoDup (dict_keys voice_map) /\
    (forall key, key ∈ dict_keys voice_map <->
                 exists v, v ∈ [jenny_voice; shouting_voice; jenny_twin] /\
                           nice_label v = Ok key).
Proof.
  assert (Forall short_name_usable [jenny_voice; shouting_voice; jenny_twin])
    as Hus by (repeat constructor; vm_compute; discriminate).
  split; [exact Hus|]. apply voice_map_keys. exact Hus.
Defined.

(** X5: among voices with the same label the last one wins: the label
    leads to the last voice of the list that carries it. *)
Theorem voice_map_last_wins (before after : list voice) (v : voice)
    (label : str) (voice_map : pydict) :
  build_voice_map (before ++ v :: after) [] = Ok voice_map ->
  nice_label v = Ok label ->
  Forall (fun v' => nice_label v' <> Ok label) after ->
  dict_getitem voice_map label = Ok v.
Proof.
  intros Hd Hl Hafter. rewrite build_voice_map_app in Hd.
  destruct (build_voice_map before []) as [d1|e]; [|discriminate].
  cbn [res_bind build_voice_map] in Hd. rewrite Hl in Hd. cbn [res_bind] in Hd.
  rewrite (build_voice_map_other after label _ _ Hafter Hd).
  apply dict_getitem_set_eq.
Qed.

Lemma voice_map_last_wins_witness :
  build_voice_map ([jenny_voice] ++ jenny_twin :: [shouting_voice]) [] =
    Ok [(jenny_label, jenny_twin); (guy_label, shouting_voice)] /\
  nice_label jenny_voice = Ok jenny_label /\
  nice_label jenny_twin = Ok jenny_label /\
  Forall (fun v' => nice_label v' <> Ok jenny_label) [shouting_voice] /\
  dict_getitem [(jenny_label, jenny_twin); (guy_label, shouting_voice)]
    jenny_label = Ok jenny_twin.
Proof.
  assert (build_voice_map ([jenny_voice] ++ jenny_twin :: [shouting_voice]) [] =
          Ok [(jenny_label, jenny_twin); (guy_label, shouting_voice)]) as Hd
    by (vm_compute; reflexivity).
  assert (nice_label jenny_twin = Ok jenny_label) as Hl
    by (vm_compute; reflexivity).
  assert (Forall (fun v' => nice_label v' <> Ok jenny_label) [shouting_voice])
    as Hafter by (repeat constructor; vm_compute; discriminate).
  split; [exact Hd|]. split; [vm_compute; reflexivity|].
  split; [exact Hl|]. split; [exact Hafter|].
  exact (voice_map_last_wins [jenny_voice] [shouting_voice] jenny_twin
           jenny_label _ Hd Hl Hafter).
Defined.

(** X6: looking a label up in the voice map gives a voice of the filtered
    list whose label it is. *)
Theorem voice_map_lookup_label (filtered : list voice) (voice_map : pydict)
    (label : str) (v : voice) :
  build_voice_map filtered [] = Ok voice_map ->
  dict_getitem voice_map label = Ok v ->
  v ∈ filtered /\ nice_label v = Ok label.
Proof.
  intros Hd Hget.
  pose proof (build_voice_map_Forall
                (fun kv => kv.2 ∈ filtered /\ nice_label kv.2 = Ok kv.1)
                filtered [] voice_map ltac:(constructor)
                ltac:(intros; split; assumption) Hd) as Hall.
  destruct (decide (label ∈ dict_keys voice_map)) as [Hin|Hout].
  - destruct (proj1 (dict_getitem_key voice_map label) Hin) as (v' & Hv' & Hel).
    assert (v' = v) as -> by congruence.
    rewrite Forall_forall in Hall. exact (Hall _ Hel).
  - rewrite (proj2 (dict_getitem_key voice_map label) Hout) in Hget.
    discriminate.
Qed.

Lemma voice_map_lookup_label_witness :
  build_voice_map [jenny_voice; shouting_voice] [] =
    Ok [(jenny_label, jenny_voice); (guy_label, shouting_voice)] /\
  dict_getitem [(jenny_label, jenny_voice); (guy_label, shouting_voice)]
    guy_label = Ok shouting_voice /\
  shouting_voice ∈ [jenny_voice; shouting_voice] /\
  nice_label shouting_voice = Ok guy_label.
Proof.
  assert (build_voice_map [jenny_voice; shouting_voice] [] =
          Ok [(jenny_label, jenny_voice); (guy_label, shouting_voice)]) as Hd
    by (vm_compute; reflexivity).
  assert (dict_getitem [(jenny_label, jenny_voice); (guy_label, shouting_voice)]
            guy_label = Ok shouting_voice) as Hget
    by (vm_compute; reflexivity).
  split; [exact Hd|]. split; [exact Hget|].
  exact (voice_map_lookup_label _ _ _ _ Hd Hget).
Defined.

(** X7: a voice whose short name is [None] makes the construction of the
    voice map raise TypeError, wherever it stands in the list. *)
Theorem voice_map_unusable_name (filtered : list voice) :
  Exists (fun v => ~ short_name_usable v) filtered ->
  build_voice_map filtered [] = Raise TypeError.
Proof.
  generalize (@nil (str * voice)).
  induction filtered as [|v vs IH]; intros acc Hex; [inversion Hex|].
  simpl. destruct (decide (short_name_usable v)) as [Hus|Hun].
  - destruct (proj1 (nice_label_total v) Hus) as [k ->]. simpl.
    apply IH. inversion Hex; [contradiction|assumption].
  - rewrite (proj2 (nice_label_total v) Hun). reflexivity.
Qed.

Lemma voice_map_unusable_name_witness :
  Exists (fun v => ~ short_name_usable v) [jenny_voice; nameless_voice] /\
  build_voice_map [jenny_voice; nameless_voice] [] = Raise TypeError.
Proof.
  assert (Exists (fun v => ~ short_name_usable v) [jenny_voice; nameless_voice])
    as Hex.
  { right. left. intros H. apply H. vm_compute. reflexivity. }
  split; [exact Hex|]. exact (voice_map_unusable_name _ Hex).
Defined.

(** X8: on a non-empty catalog without [None] short names the selection
    succeeds for every choice of the two select boxes: the voice map is not
    empty, the index handed to the voice box is the position of the default
    label among the keys, and that label leads to a voice of the catalog. *)
Theorem select_voices_succeeds (voices : list voice)
    (prefer_lang prefer_gender : str) :
  voices <> [] ->
  Forall short_name_usable voices ->
  exists voice_map default index v,
    select_voices voices prefer_lang prefer_gender =
      Ok (voice_map, default, index) /\
    voice_map <> [] /\
    dict_keys voice_map !! index = Some default /\
    dict_getitem voice_map default = Ok v /\
    v ∈ voices.
Proof.
  intros Hne Hus. unfold select_voices.
  set (pl := if decide (prefer_lang = u "Any") then PNone else PStr prefer_lang).
  set (pf := bool_decide (prefer_gender = u "Female")).
  pose proof (filter_voice_list_not_nil voices pl pf Hne) as Hfne.
  assert (Forall short_name_usable (filter_voice_list voices pl pf)) as Hfus.
  { rewrite Forall_forall in Hus |- *. intros x Hx.
    apply Hus. eapply filter_voice_list_elem, Hx. }
  cbv zeta.
  destruct (usable_labels _ Hfus) as [labels Hl].
  destruct (build_voice_map_keys _ labels [] Hl) as (d & Hd & Hk).
  simpl in Hk. rewrite filter_all in Hk.
  assert (d <> []) as Hdne.
  { intros ->. destruct (filter_voice_list voices pl pf) as [|x xs];
      [congruence|].
    inversion Hl; subst. discriminate. }
  destruct (default_label_nonempty d Hdne) as [label Hdef].
  pose proof (default_label_in_keys d label Hdef) as Hin.
  destruct (list_index_found _ _ Hin) as (n & Hidx & Hn & _).
  destruct (proj1 (dict_getitem_key d label) Hin) as (v & Hv & Hel).
  pose proof (build_voice_map_Forall
                (fun kv => kv.2 ∈ filter_voice_list voices pl pf)
                _ [] d ltac:(constructor) ltac:(intros ? ? Hx _; exact Hx) Hd)
    as Hall.
  rewrite Forall_forall in Hall.
  exists d, label, n, v. rewrite Hd. cbn [res_bind]. rewrite Hdef.
  cbn [res_bind]. rewrite Hidx. cbn [res_bind].
  split; [reflexivity|]. split; [exact Hdne|]. split; [exact Hn|].
  split; [exact Hv|]. eapply filter_voice_list_elem. exact (Hall _ Hel).
Qed.

Lemma select_voices_succeeds_witness :
  [shouting_voice; jenny_voice] <> [] /\
  Forall short_name_usable [shouting_voice; jenny_voice] /\
  exists voice_map default index v,
    select_voices [shouting_voice; jenny_voice] (u "en-US") (u "Any") =
      Ok (voice_map, default, index) /\
    voice_map <> [] /\
    dict_keys voice_map !! index = Some default /\
    dict_getitem voice_map default = Ok v /\
    v ∈ [shouting_voice; jenny_voice].
Proof.
  assert (Forall short_name_usable [shouting_voice; jenny_voice]) as Hus
    by (repeat constructor; vm_compute; discriminate).
  split; [discriminate|]. split; [exact Hus|].
  apply (select_voices_succeeds [shouting_voice; jenny_voice]);
    [discriminate|exact Hus].
Defined.

(** X9: on an empty catalog the script stops at line 179 with IndexError,
    whatever the two select boxes say. *)
Theorem select_voices_empty_catalog (prefer_lang prefer_gender : str) :
  select_voices [] prefer_lang prefer_gender = Raise IndexError.
Proof.
  unfold select_voices, filter_voice_list. cbn [primary_pass].
  destruct (truthy _); reflexivity.
Qed.

(** ** Further lemmas on the mappers and the handler *)

(** Whatever the integer, a rate that is returned is a signed percentage
    within [-50, 50]. *)
Lemma pct_to_edge_rate_within (pct : Z) (s : str) :
  pct_to_edge_rate pct = Ok s -> percent_within (-50) 50 s.
Proof.
  unfold pct_to_edge_rate.
  destruct (int_truediv (pct - 175) 75) as [quot|e]; [|discriminate].
  cbn [res_bind].
  destruct (py_round (quot * 50)%float) as [val|e]; [|discriminate].
  cbn [res_bind]. intros [= <-].
  pose proof (clamp_bounds (-50) 50 val ltac:(lia)) as Hc.
  exists (clamp (-50) 50 val). split; [reflexivity|].
  split; [apply signed_pct_roundtrip; lia|exact Hc].
Qed.

(** Whatever the float, a volume that is returned is a signed percentage
    within [-50, 0]. *)
Lemma volume_to_edge_within (vol : float) (s : str) :
  volume_to_edge vol = Ok s -> percent_within (-50) 0 s.
Proof.
  unfold volume_to_edge.
  destruct (py_round ((vol - 1) * 50)%float) as [val|e]; [|discriminate].
  cbn [res_bind]. intros [= <-].
  pose proof (clamp_bounds (-50) 0 val ltac:(lia)) as Hc.
  exists (clamp (-50) 0 val). split; [reflexivity|].
  split; [apply signed_pct_roundtrip; lia|exact Hc].
Qed.

Lemma pct_to_edge_rate_slider (pct : Z) :
  100 <= pct <= 250 -> exists s, pct_to_edge_rate pct = Ok s.
Proof.
  intros Hp.
  pose proof (forallb_seqZ rate_agrees 100 151 pct rate_agrees_all ltac:(lia))
    as H.
  unfold rate_agrees in H.
  destruct (pct_to_edge_rate pct) as [s|e]; [eauto|discriminate].
Qed.

Lemma volume_to_edge_slider (vol : float) :
  (0 <=? vol)%float = true -> (vol <=? 1)%float = true ->
  exists s, volume_to_edge vol = Ok s.
Proof.
  intros H0 H1.
  pose proof (Binary64.unit_interval_scaled_finite vol H0 H1) as Hfin.
  unfold volume_to_edge, py_round.
  destruct (Prim2SF ((vol - 1) * 50)%float); simpl in Hfin;
    try contradiction; cbn [res_bind]; eauto.
Qed.

(** ** Further properties of the generate action *)

(** X10: a voice choice that is not a key of the voice map ends the action
    with KeyError before any call: nothing is logged and the busy flag is
    down afterwards. *)
Theorem unknown_voice_choice (svc : service) (i : inputs) (w : world) :
  strip (text i) <> [] ->
  voice_choice i ∉ dict_keys (voice_map i) ->
  generate_handler svc i w =
    (Raise KeyError, {| busy := false; effects := effects w |}).
Proof.
  intros Hb Hout. rewrite generate_handler_run by assumption.
  rewrite (proj2 (dict_getitem_key _ _) Hout).
  unfold released. rewrite app_nil_r. reflexivity.
Qed.

Lemma unknown_voice_choice_witness :
  let i := {| text := u "Hello"; voice_map := [(u "Jenny", jenny_voice)];
              voice_choice := u "Aria"; rate_slider := 180; volume := 1;
              filename := u "a.mp3" |} in
  strip (text i) <> [] /\
  (voice_choice i ∉ dict_keys (voice_map i)) /\
  generate_handler (service_writing 5000) i idle =
    (Raise KeyError, {| busy := false; effects := effects idle |}).
Proof.
  cbv zeta.
  assert (u "Aria" ∉ dict_keys [(u "Jenny", jenny_voice)]) as Hout.
  { intros H. apply list_elem_of_singleton in H. vm_compute in H. discriminate. }
  split; [vm_compute; discriminate|]. split; [exact Hout|].
  apply unknown_voice_choice; [vm_compute; discriminate|exact Hout].
Defined.

(** X11: when the synthesis call raises, the exception leaves the handler:
    the log gains the call and nothing else, no result is shown, and the
    busy flag is down afterwards. *)
Theorem service_failure_propagates (svc : service) (i : inputs) (w : world)
    (v : voice) (rate_str volume_str : str) :
  strip (text i) <> [] ->
  dict_getitem (voice_map i) (voice_choice i) = Ok v ->
  pct_to_edge_rate (rate_slider i) = Ok rate_str ->
  volume_to_edge (volume i) = Ok volume_str ->
  svc (text i) (dict_get v (u "ShortName") PNone) rate_str volume_str =
    SynthRaises ->
  generate_handler svc i w =
    (Raise ServiceError,
     {| busy := false;
        effects := effects w ++
          [Synthesize (text i) (dict_get v (u "ShortName") PNone) rate_str
             volume_str true] |}).
Proof.
  intros Hb Hv Hr Hvol Hs. rewrite generate_handler_run by assumption.
  rewrite Hv, Hr, Hvol. cbv zeta. rewrite Hs. reflexivity.
Qed.

Lemma service_failure_propagates_witness :
  generate_handler service_failing (example_inputs (u "Hello world")) idle =
    (Raise ServiceError,
     {| busy := false;
        effects := effects idle ++
          [Synthesize (text (example_inputs (u "Hello world")))
             (dict_get jenny_voice (u "ShortName") PNone) (u "+3%") (u "+0%")
             true] |}).
Proof.
  apply (service_failure_propagates service_failing
           (example_inputs (u "Hello world")) idle jenny_voice (u "+3%") (u "+0%"));
    [vm_compute; discriminate|vm_compute; reflexivity|vm_compute; reflexivity
    |vm_compute; reflexivity|reflexivity].
Defined.

(** X12: the action ends normally exactly when the text is not blank, the
    chosen voice is in the map, both parameters map, and the service wrote
    at least 2000 bytes. *)
Theorem success_exactly_when (svc : service) (i : inputs) (w : world) :
  fst (generate_handler svc i w) = Ok tt <->
  strip (text i) <> [] /\
  exists v rate_str volume_str audio,
    dict_getitem (voice_map i) (voice_choice i) = Ok v /\
    pct_to_edge_rate (rate_slider i) = Ok rate_str /\
    volume_to_edge (volume i) = Ok volume_str /\
    svc (text i) (dict_get v (u "ShortName") PNone) rate_str volume_str =
      SynthWrote audio /\
    (2000 <= length audio)%nat.
Proof.
  destruct (decide (strip (text i) = [])) as [Hblank|Hb].
  { rewrite generate_handler_blank by assumption. simpl.
    split; [discriminate|]. intros [H _]. contradiction. }
  rewrite generate_handler_run by assumption.
  destruct (dict_getitem (voice_map i) (voice_choice i)) as [v|e].
  2:{ simpl. split; [discriminate|].
      intros (_ & ? & ? & ? & ? & H & _). discriminate. }
  destruct (pct_to_edge_rate (rate_slider i)) as [rate_str|e].
  2:{ simpl. split; [discriminate|].
      intros (_ & ? & ? & ? & ? & _ & H & _). discriminate. }
  destruct (volume_to_edge (volume i)) as [volume_str|e].
  2:{ simpl. split; [discriminate|].
      intros (_ & ? & ? & ? & ? & _ & _ & H & _). discriminate. }
  cbv zeta.
  destruct (svc (text i) (dict_get v (u "ShortName") PNone) rate_str volume_str)
    as [|audio] eqn:Hs.
  { simpl. split; [discriminate|].
    intros (_ & v' & r' & vol' & a' & [= <-] & [= <-] & [= <-] & H & _).
    congruence. }
  destruct (Nat.ltb_spec (length audio) 2000) as [Hlt|Hge]; simpl.
  - split; [discriminate|].
    intros (_ & v' & r' & vol' & a' & [= <-] & [= <-] & [= <-] & H & Hlen).
    assert (a' = audio) as -> by congruence. lia.
  - split; [|reflexivity]. intros _. split; [assumption|].
    exists v, rate_str, volume_str, audio. auto.
Qed.

(** X13: an action calls the service at most once, and shows a result (the
    success message, the player, the download button) only when it ends
    normally. *)
Theorem one_call_and_no_result_on_failure (svc : service) (i : inputs)
    (w : world) :
  let '(r, w') := generate_handler svc i w in
  exists new,
    effects w' = effects w ++ new /\
    (length (filter is_call new) <= 1)%nat /\
    (r <> Ok tt -> Forall (fun ev => ~ is_output ev) new).
Proof.
  destruct (decide (strip (text i) = [])) as [Hblank|Hb].
  { rewrite generate_handler_blank by assumption.
    exists [Warning msg_enter_text]. split; [reflexivity|].
    split; [simpl; lia|]. intros _. repeat constructor. simpl. tauto. }
  rewrite generate_handler_run by assumption. unfold released.
  destruct (dict_getitem (voice_map i) (voice_choice i)) as [v|e];
    [|exists []; split; [reflexivity|]; split; [simpl; lia|constructor]].
  destruct (pct_to_edge_rate (rate_slider i)) as [rate_str|e];
    [|exists []; split; [reflexivity|]; split; [simpl; lia|constructor]].
  destruct (volume_to_edge (volume i)) as [volume_str|e];
    [|exists []; split; [reflexivity|]; split; [simpl; lia|constructor]].
  cbv zeta.
  destruct (svc (text i) (dict_get v (u "ShortName") PNone) rate_str volume_str)
    as [|audio].
  { eexists. split; [reflexivity|]. split; [simpl; lia|].
    intros _. repeat constructor. simpl. tauto. }
  destruct (length audio <? 2000)%nat.
  - eexists. split; [reflexivity|]. split; [simpl; lia|].
    intros _. repeat constructor; simpl; tauto.
  - eexists. split; [reflexivity|]. split; [simpl; lia|].
    intros H. congruence.
Qed.

(** X14: whatever the inputs, a call that is made carries the text as it
    was typed (not trimmed), the short name of the chosen voice, a rate
    within [-50, 50] and a volume within [-50, 0]. *)
Theorem call_carries_request (svc : service) (i : inputs) (w : world) :
  exists new,
    effects (snd (generate_handler svc i w)) = effects w ++ new /\
    Forall (request_for i) new.
Proof.
  destruct (decide (strip (text i) = [])) as [Hblank|Hb].
  { rewrite generate_handler_blank by assumption.
    exists [Warning msg_enter_text]. split; [reflexivity|].
    repeat constructor. }
  rewrite generate_handler_run by assumption. unfold released.
  destruct (dict_getitem (voice_map i) (voice_choice i)) as [v|e] eqn:Hv;
    [|exists []; split; [reflexivity|constructor]].
  destruct (pct_to_edge_rate (rate_slider i)) as [rate_str|e] eqn:Hr;
    [|exists []; split; [reflexivity|constructor]].
  destruct (volume_to_edge (volume i)) as [volume_str|e] eqn:Hvol;
    [|exists []; split; [reflexivity|constructor]].
  cbv zeta.
  assert (request_for i
            (Synthesize (text i) (dict_get v (u "ShortName") PNone) rate_str
               volume_str true)) as Hreq.
  { simpl. split; [reflexivity|]. split; [eauto|].
    split; [eapply pct_to_edge_rate_within, Hr
           |eapply volume_to_edge_within, Hvol]. }
  destruct (svc (text i) (dict_get v (u "ShortName") PNone) rate_str volume_str)
    as [|audio].
  { eexists. split; [reflexivity|].
    constructor; [exact Hreq|constructor]. }
  destruct (length audio <? 2000)%nat;
    (eexists; split; [reflexivity|]);
    (constructor; [exact Hreq|]);
    repeat (constructor; [exact I|]); constructor.
Qed.

(** X15: with a text that is not blank, a voice chosen among the keys, the
    rate slider between 100 and 250 and the volume between 0.0 and 1.0, the
    parameter mapping cannot fail: the service is called exactly once, and
    the action ends normally, stops on short audio, or passes on the
    exception of the service. *)
Theorem slider_inputs_reach_service (svc : service) (i : inputs) (w : world) :
  strip (text i) <> [] ->
  voice_choice i ∈ dict_keys (voice_map i) ->
  100 <= rate_slider i <= 250 ->
  (0 <=? volume i)%float = true ->
  (volume i <=? 1)%float = true ->
  let '(r, w') := generate_handler svc i w in
  (r = Ok tt \/ r = Raise StopException \/ r = Raise ServiceError) /\
  exists new,
    effects w' = effects w ++ new /\ length (filter is_call new) = 1%nat.
Proof.
  intros Hb Hin Hrate H0 H1. rewrite generate_handler_run by assumption.
  destruct (proj1 (dict_getitem_key _ _) Hin) as (v & -> & _).
  destruct (pct_to_edge_rate_slider _ Hrate) as [rate_str ->].
  destruct (volume_to_edge_slider _ H0 H1) as [volume_str ->].
  cbv zeta. unfold released.
  destruct (svc (text i) (dict_get v (u "ShortName") PNone) rate_str volume_str)
    as [|audio].
  { split; [auto|]. eexists. split; reflexivity. }
  destruct (length audio <? 2000)%nat;
    (split; [auto|]); eexists; split; reflexivity.
Qed.

Lemma slider_inputs_reach_service_witness :
  fst (generate_handler (service_writing 3000) (example_inputs (u "Hello world"))
         idle) = Ok tt \/
  fst (generate_handler (service_writing 3000) (example_inputs (u "Hello world"))
         idle) = Raise StopException \/
  fst (generate_handler (service_writing 3000) (example_inputs (u "Hello world"))
         idle) = Raise ServiceError.
Proof.
  pose proof (slider_inputs_reach_service (service_writing 3000)
                (example_inputs (u "Hello world")) idle
                ltac:(vm_compute; discriminate) ltac:(left)
                ltac:(simpl; lia) ltac:(reflexivity) ltac:(reflexivity)) as H.
  destruct (generate_handler (service_writing 3000)
              (example_inputs (u "Hello world")) idle) as [r w'].
  exact (proj1 H).
Defined.

(** ** Binary64 arithmetic: sign, binade and lower bounds of results *)

Module Binary64Bounds.
Import Binary64Spec Binary64More Binary64.

Lemma Zdigits2_le_pow m k : 0 < m -> Zdigits2 m <= k -> m < 2 ^ k.
Proof.
  intros Hm Hk. rewrite Zdigits2_log2 in Hk by assumption.
  apply Z.log2_lt_pow2; lia.
Qed.

Lemma Zdigits2_ge_pow m k : 0 < m -> 0 < k -> k <= Zdigits2 m -> 2 ^ (k - 1) <= m.
Proof.
  intros Hm Hk0 Hk. rewrite Zdigits2_log2 in Hk by assumption.
  apply Z.log2_le_pow2; lia.
Qed.

Lemma Zdigits2_pow_le m k : 0 <= k -> 2 ^ k <= m -> k + 1 <= Zdigits2 m.
Proof.
  intros Hk Hm. assert (0 < 2 ^ k) by (apply Z.pow_pos_nonneg; lia).
  rewrite Zdigits2_log2 by lia.
  pose proof (proj1 (Z.log2_le_pow2 m k ltac:(lia)) Hm). lia.
Qed.

(** The result of the rounding function, case by case. *)
Lemma binary_round_aux_shape sx mx ex lx :
  0 < mx -> ex <= fexp prec emax (Zdigits2 mx + ex) ->
  rounded_like sx (Zdigits2 mx + ex) (binary_round_aux prec emax sx mx ex lx).
Proof.
  intros Hmx Hex. unfold binary_round_aux.
  destruct (shr_fexp_spec mx ex lx ltac:(lia)) as [Hm1 He1].
  destruct (shr_fexp prec emax mx ex lx) as [mrs1 e1]. simpl in Hm1, He1.
  set (m1 := round_nearest_even (shr_m mrs1) (loc_of_shr_record mrs1)).
  pose proof (round_nearest_even_bounds (shr_m mrs1) (loc_of_shr_record mrs1))
    as Hrne. fold m1 in Hrne.
  assert (0 <= shr_m mrs1) as Hnn1
    by (rewrite Hm1; apply Z.shiftr_nonneg; lia).
  pose proof (Zdigits2_pos mx Hmx) as Hdpos.
  assert (Zdigits2 (shr_m mrs1) =
          Z.max 0 (Zdigits2 mx - Z.max 0 (fexp prec emax (Zdigits2 mx + ex) - ex)))
    as Hd1 by (rewrite Hm1; apply Zdigits2_shiftr; lia).
  pose proof (Zdigits2_mono (shr_m mrs1) m1 ltac:(lia)) as Hlo.
  pose proof (Zdigits2_mono m1 (shr_m mrs1 + 1) ltac:(lia)) as Hhi.
  pose proof (Zdigits2_succ (shr_m mrs1) Hnn1) as Hsucc.
  destruct (shr_fexp_spec m1 e1 loc_Exact ltac:(lia)) as [Hm2 He2].
  destruct (shr_fexp prec emax m1 e1 loc_Exact) as [mrs2 e2].
  simpl in Hm2, He2.
  assert (0 <= shr_m mrs2) as Hnn2
    by (rewrite Hm2; apply Z.shiftr_nonneg; lia).
  assert (Zdigits2 (shr_m mrs2) =
          Z.max 0 (Zdigits2 m1 - Z.max 0 (fexp prec emax (Zdigits2 m1 + e1) - e1)))
    as Hd2 by (rewrite Hm2; apply Zdigits2_shiftr; lia).
  destruct (shr_m mrs2) as [|m2|m2] eqn:Hs2; [| |lia].
  - change (Zdigits2 0) with 0 in Hd2. simpl.
    unfold fexp, SpecFloat.emin, prec, emax in *. split; [reflexivity|lia].
  - simpl Zdigits2 in Hd2.
    destruct (Z.leb_spec e2 (emax - prec)) as [Hle|Hgt]; simpl;
      unfold fexp, SpecFloat.emin, prec, emax in *;
      (split; [reflexivity|lia]).
Qed.


(** What the rounding function returns is a valid binary64 number. *)
Lemma binary_round_aux_valid sx mx ex lx :
  0 < mx -> ex <= fexp prec emax (Zdigits2 mx + ex) ->
  valid_binary (binary_round_aux prec emax sx mx ex lx) = true.
Proof.
  intros Hmx Hex. unfold binary_round_aux.
  destruct (shr_fexp_spec mx ex lx ltac:(lia)) as [Hm1 He1].
  destruct (shr_fexp prec emax mx ex lx) as [mrs1 e1]. simpl in Hm1, He1.
  set (m1 := round_nearest_even (shr_m mrs1) (loc_of_shr_record mrs1)).
  pose proof (round_nearest_even_bounds (shr_m mrs1) (loc_of_shr_record mrs1))
    as Hrne. fold m1 in Hrne.
  assert (0 <= shr_m mrs1) as Hnn1
    by (rewrite Hm1; apply Z.shiftr_nonneg; lia).
  pose proof (Zdigits2_pos mx Hmx) as Hdpos.
  assert (Zdigits2 (shr_m mrs1) =
          Z.max 0 (Zdigits2 mx - Z.max 0 (fexp prec emax (Zdigits2 mx + ex) - ex)))
    as Hd1 by (rewrite Hm1; apply Zdigits2_shiftr; lia).
  pose proof (Zdigits2_mono (shr_m mrs1) m1 ltac:(lia)) as Hlo.
  pose proof (Zdigits2_mono m1 (shr_m mrs1 + 1) ltac:(lia)) as Hhi.
  pose proof (Zdigits2_succ (shr_m mrs1) Hnn1) as Hsucc.
  destruct (shr_fexp_spec m1 e1 loc_Exact ltac:(lia)) as [Hm2 He2].
  destruct (shr_fexp prec emax m1 e1 loc_Exact) as [mrs2 e2].
  simpl in Hm2, He2.
  assert (0 <= shr_m mrs2) as Hnn2
    by (rewrite Hm2; apply Z.shiftr_nonneg; lia).
  assert (Zdigits2 (shr_m mrs2) =
          Z.max 0 (Zdigits2 m1 - Z.max 0 (fexp prec emax (Zdigits2 m1 + e1) - e1)))
    as Hd2 by (rewrite Hm2; apply Zdigits2_shiftr; lia).
  destruct (shr_m mrs2) as [|m2|m2] eqn:Hs2; [reflexivity| |lia].
  simpl Zdigits2 in Hd2.
  destruct (Z.leb_spec e2 (emax - prec)) as [Hle|Hgt]; [|reflexivity].
  unfold SpecFloat.valid_binary, bounded, canonical_mantissa.
  apply andb_true_intro. split; [apply Z.eqb_eq|apply Z.leb_le; exact Hle].
  unfold fexp, SpecFloat.emin, prec, emax in *. lia.
Qed.

Lemma binary_round_shape sx mx ex :
  rounded_like sx (Zpos (digits2_pos mx) + ex) (binary_round prec emax sx mx ex).
Proof.
  unfold binary_round.
  pose proof (shl_align_digits mx ex (fexp prec emax (Zpos (digits2_pos mx) + ex)))
    as Hd.
  destruct (shl_align_spec mx ex (fexp prec emax (Zpos (digits2_pos mx) + ex)))
    as [He _].
  destruct (shl_align mx ex (fexp prec emax (Zpos (digits2_pos mx) + ex)))
    as [mz ez]. simpl fst in *. simpl snd in *. simpl Zdigits2 in Hd.
  rewrite <- Hd. apply (binary_round_aux_shape sx (Zpos mz) ez loc_Exact); [lia|].
  simpl Zdigits2. rewrite Hd. lia.
Qed.

(** A non-zero integer times a power of two rounds to a number of its
    sign. *)
Lemma binary_normalize_shape m e szero :
  m <> 0 ->
  rounded_like (m <? 0) (Zdigits2 m + e) (binary_normalize prec emax m e szero).
Proof.
  intros Hm. destruct m as [|p|p]; [congruence| |]; simpl binary_normalize.
  - apply binary_round_shape.
  - apply binary_round_shape.
Qed.

Lemma at_least_mono c c' x : c <= c' -> at_least c' x -> at_least c x.
Proof.
  intros Hc. destruct x as [s|s| |s m e]; simpl; auto.
  assert (0 < 2 ^ Z.max 0 (- e)) by (apply Z.pow_pos_nonneg; lia). nia.
Qed.

(** A finite number of the binade of [2^k] or above is at least [2^k]. *)
Lemma binade_at_least k s m e :
  0 <= k -> k + 1 <= Zpos (digits2_pos m) + e ->
  at_least (2 ^ k) (S754_finite s m e).
Proof.
  intros Hk Hd. simpl.
  pose proof (Zdigits2_ge_pow (Zpos m) (Zpos (digits2_pos m)) ltac:(lia)
                ltac:(lia) ltac:(simpl; lia)) as Hm.
  destruct (Z.le_gt_cases 0 e) as [He|He].
  - rewrite (Z.max_l 0 (- e)) by lia. rewrite (Z.max_r 0 e) by lia.
    rewrite Z.pow_0_r, Z.mul_1_r.
    apply Z.le_trans with (2 ^ (Zpos (digits2_pos m) - 1) * 2 ^ e).
    + rewrite <- Z.pow_add_r by lia. apply Z.pow_le_mono_r; lia.
    + apply Z.mul_le_mono_nonneg_r; [apply Z.pow_nonneg; lia|exact Hm].
  - rewrite (Z.max_r 0 (- e)) by lia. rewrite (Z.max_l 0 e) by lia.
    rewrite Z.pow_0_r, Z.mul_1_r. rewrite <- Z.pow_add_r by lia.
    apply Z.le_trans with (2 ^ (Zpos (digits2_pos m) - 1)); [|exact Hm].
    apply Z.pow_le_mono_r; lia.
Qed.

(** Rounding a number that is at least the integer [c], itself at most
    [2^53], gives a number that is at least [c]. *)
Lemma binary_round_aux_at_least c sx mx ex lx :
  0 < c <= 2 ^ 53 -> 0 < mx -> ex <= fexp prec emax (Zdigits2 mx + ex) ->
  ex <= 0 -> c * 2 ^ (- ex) <= mx ->
  at_least c (binary_round_aux prec emax sx mx ex lx).
Proof.
  intros [Hc Hc53] Hmx Hex Hex0 Hge.
  pose proof (binary_round_aux_shape sx mx ex lx Hmx Hex) as Hshape.
  destruct (Z.le_gt_cases 54 (Zdigits2 mx + ex)) as [Hbig|Hsmall].
  { (* a large number: its binade is enough *)
    destruct (binary_round_aux prec emax sx mx ex lx) as [s|s| |s m e];
      simpl in Hshape; try tauto; try exact I; [lia|].
    apply (at_least_mono c (2 ^ 53)); [lia|].
    apply binade_at_least; lia. }
  unfold binary_round_aux in *.
  destruct (shr_fexp_spec mx ex lx ltac:(lia)) as [Hm1 He1].
  destruct (shr_fexp prec emax mx ex lx) as [mrs1 e1]. simpl in Hm1, He1.
  set (m1 := round_nearest_even (shr_m mrs1) (loc_of_shr_record mrs1)) in *.
  pose proof (round_nearest_even_bounds (shr_m mrs1) (loc_of_shr_record mrs1))
    as Hrne. fold m1 in Hrne.
  assert (0 <= shr_m mrs1) as Hnn1
    by (rewrite Hm1; apply Z.shiftr_nonneg; lia).
  pose proof (Zdigits2_pos mx Hmx) as Hdpos.
  set (n := fexp prec emax (Zdigits2 mx + ex) - ex) in *.
  assert (0 <= n) as Hn by (unfold n; lia).
  assert (e1 <= 0) as He10.
  { unfold n, fexp, SpecFloat.emin, prec, emax in *. lia. }
  rewrite Z.max_r in Hm1, He1 by lia.
  assert (c * 2 ^ (- e1) <= shr_m mrs1) as Hlow.
  { rewrite Hm1, Z.shiftr_div_pow2 by lia.
    apply Z.div_le_lower_bound; [apply Z.pow_pos_nonneg; lia|].
    replace (- ex) with (n + - e1) in Hge by lia.
    rewrite Z.pow_add_r in Hge by lia. lia. }
  assert (Zdigits2 (shr_m mrs1) <= 53) as Hd1.
  { rewrite Hm1, Zdigits2_shiftr by lia.
    unfold n, fexp, SpecFloat.emin, prec, emax in *. lia. }
  assert (0 < 2 ^ (- e1)) as Hp1 by (apply Z.pow_pos_nonneg; lia).
  assert (0 < shr_m mrs1) as Hpos1 by nia.
  pose proof (Zdigits2_le_pow _ _ Hpos1 Hd1) as Hlt53.
  destruct (shr_fexp_spec m1 e1 loc_Exact ltac:(lia)) as [Hm2 He2].
  destruct (shr_fexp prec emax m1 e1 loc_Exact) as [mrs2 e2].
  simpl in Hm2, He2.
  pose proof (Zdigits2_mono m1 (shr_m mrs1 + 1) ltac:(lia)) as Hhi.
  pose proof (Zdigits2_succ (shr_m mrs1) Hnn1) as Hsucc.
  set (n2 := Z.max 0 (fexp prec emax (Zdigits2 m1 + e1) - e1)) in *.
  assert (n2 = 0 \/ (n2 = 1 /\ Zdigits2 m1 = 54)) as Hn2.
  { unfold n2, n, fexp, SpecFloat.emin, prec, emax in *. lia. }
  destruct Hn2 as [Hz|[Hone Hd54]].
  - rewrite Hz, Z.shiftr_0_r in Hm2. rewrite Hz, Z.add_0_r in He2.
    rewrite Hm2. subst e2.
    destruct m1 as [|p|p] eqn:Hm1e; [lia| |lia].
    destruct (e1 <=? emax - prec); [|exact I]. simpl.
    rewrite (Z.max_r 0 (- e1)) by lia. rewrite (Z.max_l 0 e1) by lia.
    rewrite Z.pow_0_r. lia.
  - assert (m1 = 2 ^ 53) as Hm1v.
    { pose proof (Zdigits2_ge_pow m1 54 ltac:(lia) ltac:(lia) ltac:(lia)).
      change (54 - 1) with 53 in *. lia. }
    rewrite Hone, Hm1v in Hm2. change (Z.shiftr (2 ^ 53) 1) with (2 ^ 52) in Hm2.
    rewrite Hm2. change (2 ^ 52) with 4503599627370496.
    destruct (e2 <=? emax - prec); [|exact I]. simpl.
    subst e2. rewrite Hone.
    destruct (Z.eq_dec e1 0) as [He0|He0].
    + rewrite He0. rewrite He0 in Hlow.
      change (2 ^ Z.max 0 (- (0 + 1))) with 1.
      change (2 ^ Z.max 0 (0 + 1)) with 2.
      change (2 ^ (- 0)) with 1 in Hlow.
      change (2 ^ 53) with 9007199254740992 in *. lia.
    + rewrite (Z.max_r 0 (- (e1 + 1))) by lia.
      rewrite (Z.max_l 0 (e1 + 1)) by lia. rewrite Z.pow_0_r.
      replace (- e1) with (1 + - (e1 + 1)) in Hlow by lia.
      rewrite Z.pow_add_r in Hlow by lia.
      change (2 ^ 1) with 2 in Hlow.
      change (2 ^ 53) with 9007199254740992 in *. lia.
Qed.

(** The nearest integer to a number that is at least [c] is at least
    [c]. *)
Lemma round_half_even_at_least c s m e :
  at_least c (S754_finite s m e) -> c <= round_half_even m e.
Proof.
  simpl. unfold round_half_even. intros Hge.
  destruct (Z.leb_spec 0 e) as [He|He].
  - rewrite (Z.max_l 0 (- e)) in Hge by lia.
    rewrite (Z.max_r 0 e) in Hge by lia. rewrite Z.pow_0_r in Hge. lia.
  - rewrite (Z.max_r 0 (- e)) in Hge by lia.
    rewrite (Z.max_l 0 e) in Hge by lia. rewrite Z.pow_0_r in Hge.
    assert (0 < 2 ^ (- e)) as Hd by (apply Z.pow_pos_nonneg; lia).
    assert (c <= Zpos m / 2 ^ (- e)) as Hq
      by (apply Z.div_le_lower_bound; lia).
    cbv zeta.
    destruct (2 * (Zpos m mod 2 ^ (- e)) ?= 2 ^ (- e)); [|lia|lia].
    destruct (Z.even (Zpos m / 2 ^ (- e))); lia.
Qed.

Lemma round_half_even_nonneg m e : 0 <= round_half_even m e.
Proof.
  unfold round_half_even. destruct (Z.leb_spec 0 e) as [He|He].
  - apply Z.mul_nonneg_nonneg; [lia|apply Z.pow_nonneg; lia].
  - assert (0 < 2 ^ (- e)) as Hd by (apply Z.pow_pos_nonneg; lia).
    assert (0 <= Zpos m / 2 ^ (- e)) as Hq by (apply Z.div_pos; lia).
    cbv zeta.
    destruct (2 * (Zpos m mod 2 ^ (- e)) ?= 2 ^ (- e)); [|lia|lia].
    destruct (Z.even (Zpos m / 2 ^ (- e))); lia.
Qed.


Lemma Zdigits2_add a b d :
  0 < a -> 0 < b -> Zdigits2 a <= d -> Zdigits2 b <= d -> Zdigits2 (a + b) <= d + 1.
Proof.
  intros Ha Hb Hda Hdb.
  assert (0 < d) by (pose proof (Zdigits2_pos a Ha); lia).
  pose proof (Zdigits2_le_pow a d Ha Hda).
  pose proof (Zdigits2_le_pow b d Hb Hdb).
  assert (a + b < 2 ^ (d + 1)) as Hlt by (rewrite Z.pow_add_r by lia; lia).
  rewrite Zdigits2_log2 by lia.
  pose proof (proj1 (Z.log2_lt_pow2 (a + b) (d + 1) ltac:(lia)) Hlt). lia.
Qed.

(** *** Multiplication by fifty *)

Lemma SF64mul_fifty_unfold s m e :
  SF64mul (S754_finite s m e) SF_fifty =
    binary_round_aux prec emax s (Zpos m * 7036874417766400) (e + -47) loc_Exact.
Proof.
  unfold SF64mul, SFmul, SF_fifty. rewrite Bool.xorb_false_r. reflexivity.
Qed.

Lemma SF64mul_fifty_shape s m e :
  exists mag,
    Zpos (digits2_pos m) + e + 5 <= mag <= Zpos (digits2_pos m) + e + 6 /\
    rounded_like s mag (SF64mul (S754_finite s m e) SF_fifty).
Proof.
  rewrite SF64mul_fifty_unfold.
  pose proof (Zdigits2_mul (Zpos m) 7036874417766400 ltac:(lia) ltac:(lia))
    as Hmul.
  change (Zdigits2 7036874417766400) with 53 in Hmul.
  simpl (Zdigits2 (Zpos m)) in Hmul.
  exists (Zdigits2 (Zpos m * 7036874417766400) + (e + -47)).
  split; [lia|]. apply binary_round_aux_shape; [lia|].
  unfold fexp, SpecFloat.emin, prec, emax. lia.
Qed.

(** Fifty times a number that is at least one is at least fifty. *)
Lemma SF64mul_fifty_at_least s m e :
  at_least 1 (S754_finite s m e) ->
  at_least 50 (SF64mul (S754_finite s m e) SF_fifty).
Proof.
  intros Hone. simpl in Hone. rewrite SF64mul_fifty_unfold.
  pose proof (Zdigits2_mul (Zpos m) 7036874417766400 ltac:(lia) ltac:(lia))
    as Hmul.
  change (Zdigits2 7036874417766400) with 53 in Hmul.
  simpl (Zdigits2 (Zpos m)) in Hmul.
  assert (e + -47 <=
          fexp prec emax (Zdigits2 (Zpos m * 7036874417766400) + (e + -47)))
    as Hpre by (unfold fexp, SpecFloat.emin, prec, emax; lia).
  destruct (Z.le_gt_cases e 47) as [Hsmall|Hbig].
  - apply binary_round_aux_at_least;
      [change (2 ^ 53) with 9007199254740992; lia|lia|exact Hpre|lia|].
    destruct (Z.le_gt_cases e 0) as [Hneg|Hposv].
    + rewrite (Z.max_r 0 (- e)) in Hone by lia.
      rewrite (Z.max_l 0 e) in Hone by lia. rewrite Z.pow_0_r in Hone.
      replace (- (e + -47)) with (47 + - e) by lia.
      rewrite Z.pow_add_r by lia.
      change (2 ^ 47) with 140737488355328.
      assert (0 < 2 ^ (- e)) by (apply Z.pow_pos_nonneg; lia). nia.
    + assert (2 ^ (- (e + -47)) <= 2 ^ 47) as Hp
        by (apply Z.pow_le_mono_r; lia).
      change (2 ^ 47) with 140737488355328 in Hp.
      assert (0 < 2 ^ (- (e + -47))) by (apply Z.pow_pos_nonneg; lia). nia.
  - pose proof (binary_round_aux_shape s (Zpos m * 7036874417766400) (e + -47)
                  loc_Exact ltac:(lia) Hpre) as Hshape.
    set (D := Zdigits2 (Zpos m * 7036874417766400)) in *.
    destruct (binary_round_aux prec emax s (Zpos m * 7036874417766400) (e + -47)
                loc_Exact) as [s'|s'| |s' m' e'];
      simpl in Hshape; try tauto; try exact I; [lia|].
    apply (at_least_mono 50 (2 ^ 53));
      [change (2 ^ 53) with 9007199254740992; lia|].
    apply binade_at_least; lia.
Qed.

(** *** Subtraction of one *)

Section SubOne.

Variables (s : bool) (m : positive) (e : Z).
Hypothesis Hvalid : valid_binary (S754_finite s m e) = true.

Let ez := Z.min e (-52).
Let ax := Zpos (fst (shl_align m e ez)).
Let aone := Zpos (fst (shl_align 4503599627370496 (-52) ez)).

Lemma sub_one_unfold :
  SF64sub (S754_finite s m e) SF_one =
    binary_normalize prec emax (cond_Zopp s ax - aone) ez false.
Proof. reflexivity. Qed.

Lemma sub_one_aligned :
  Zdigits2 ax + ez = Zpos (digits2_pos m) + e /\ Zdigits2 aone + ez = 1.
Proof.
  unfold ax, aone.
  pose proof (shl_align_digits m e ez) as H1.
  pose proof (shl_align_digits 4503599627370496 (-52) ez) as H2.
  destruct (shl_align_spec m e ez) as [He1 _].
  destruct (shl_align_spec 4503599627370496 (-52) ez) as [He2 _].
  rewrite He1 in H1. rewrite He2 in H2. unfold ez in *.
  replace (Z.min e (Z.min e (-52))) with (Z.min e (-52)) in H1 by lia.
  replace (Z.min (-52) (Z.min e (-52))) with (Z.min e (-52)) in H2 by lia.
  change (Zdigits2 4503599627370496) with 53 in H2.
  simpl (Zdigits2 (Zpos m)) in H1. lia.
Qed.

Lemma valid_digits : Zpos (digits2_pos m) <= 53 /\ -1074 <= e.
Proof.
  unfold SpecFloat.valid_binary, bounded, canonical_mantissa in Hvalid.
  apply andb_prop in Hvalid. destruct Hvalid as [Hc _]. apply Z.eqb_eq in Hc.
  unfold fexp, SpecFloat.emin, prec, emax in Hc. lia.
Qed.

(** The difference is a zero or a finite number when the operand is below
    [2^b]. *)
Lemma sub_one_finite b :
  Zpos (digits2_pos m) + e <= b -> 1 <= b -> b + 1 < emax ->
  finite_below (b + 2) (SF64sub (S754_finite s m e) SF_one).
Proof.
  intros Hb Hb1 Hbe. rewrite sub_one_unfold.
  destruct sub_one_aligned as [Hax Hone].
  apply (finite_below_mono (Z.max (b + 1 + 1) (-1020))); [lia|].
  apply binary_normalize_finite; [|lia].
  assert (Zdigits2 (cond_Zopp s ax - aone) <= b + 1 - ez); [|lia].
  destruct s; unfold cond_Zopp.
  - rewrite Zdigits2_abs.
    replace (Z.abs (- ax - aone)) with (ax + aone) by (unfold ax, aone; lia).
    replace (b + 1 - ez) with ((b - ez) + 1) by lia.
    apply Zdigits2_add; unfold ax, aone in *; lia.
  - pose proof (Zdigits2_sub ax aone (b - ez)) as Hs.
    unfold ax, aone in *. specialize (Hs ltac:(lia) ltac:(lia)). lia.
Qed.

(** A negative operand gives a negative difference of magnitude at least
    one. *)
Lemma sub_one_negative :
  s = true ->
  exists mag,
    1 <= mag <= Z.max (Zpos (digits2_pos m) + e) 1 + 1 /\
    rounded_like true mag (SF64sub (S754_finite s m e) SF_one).
Proof.
  intros Hs. rewrite sub_one_unfold. rewrite Hs. unfold cond_Zopp.
  destruct sub_one_aligned as [Hax Hone].
  assert (- ax - aone <> 0) as Hnz by (unfold ax, aone; lia).
  pose proof (binary_normalize_shape (- ax - aone) ez false Hnz) as Hshape.
  replace (- ax - aone <? 0) with true in Hshape
    by (symmetry; apply Z.ltb_lt; unfold ax, aone; lia).
  exists (Zdigits2 (- ax - aone) + ez). split; [|exact Hshape].
  rewrite Zdigits2_abs.
  replace (Z.abs (- ax - aone)) with (ax + aone) by (unfold ax, aone; lia).
  pose proof (Zdigits2_mono aone (ax + aone)) as Hlo.
  pose proof (Zdigits2_add ax aone (Z.max (Zdigits2 ax) (Zdigits2 aone))) as Hhi.
  unfold ax, aone in *.
  specialize (Hlo ltac:(lia)).
  specialize (Hhi ltac:(lia) ltac:(lia) ltac:(lia) ltac:(lia)). lia.
Qed.

(** An operand that is at least one gives a difference that is a zero or a
    positive number, with the sign bit down either way. *)
Lemma sub_one_from_above :
  s = false -> SFleb SF_one (S754_finite s m e) = true ->
  SF64sub (S754_finite s m e) SF_one = S754_zero false \/
  exists mag,
    mag <= Zpos (digits2_pos m) + e /\
    rounded_like false mag (SF64sub (S754_finite s m e) SF_one).
Proof.
  intros Hs Hle. rewrite sub_one_unfold. rewrite Hs in Hle |- *.
  unfold cond_Zopp.
  destruct sub_one_aligned as [Hax Hone].
  destruct valid_digits as [Hd53 Hemin].
  assert (aone <= ax) as Hge.
  { unfold SFleb, SFcompare, SF_one in Hle.
    destruct (shl_align_spec m e ez) as [_ Hmx].
    destruct (shl_align_spec 4503599627370496 (-52) ez) as [_ Hm1].
    fold ax in Hmx. fold aone in Hm1.
    destruct (Z.compare_spec (-52) e) as [Heq|Hlt|Hgt]; [| |discriminate].
    - subst e. unfold ez in *.
      change (-52 - Z.min (-52) (-52)) with 0 in *.
      rewrite Z.shiftl_0_r in Hmx, Hm1. rewrite Hmx, Hm1.
      rewrite Pos.compare_cont_spec in Hle. simpl in Hle.
      destruct (Pos.compare_spec 4503599627370496 m) as [Hc|Hc|Hc];
        try discriminate; lia.
    - assert (Zpos (digits2_pos m) = 53) as Hd.
      { unfold SpecFloat.valid_binary, bounded, canonical_mantissa in Hvalid.
        apply andb_prop in Hvalid. destruct Hvalid as [Hc _].
        apply Z.eqb_eq in Hc.
        unfold fexp, SpecFloat.emin, prec, emax in Hc. lia. }
      pose proof (Zdigits2_ge_pow (Zpos m) 53 ltac:(lia) ltac:(lia)
                    ltac:(simpl; lia)) as Hm52.
      change (2 ^ (53 - 1)) with 4503599627370496 in Hm52.
      unfold ez in *. replace (Z.min e (-52)) with (-52) in * by lia.
      change (-52 - -52) with 0 in Hm1. rewrite Z.shiftl_0_r in Hm1.
      rewrite Hm1, Hmx. replace (e - Z.min e (-52)) with (e + 52) by lia.
      rewrite Z.shiftl_mul_pow2 by lia.
      assert (0 < 2 ^ (e + 52)) by (apply Z.pow_pos_nonneg; lia). nia. }
  destruct (Z.eq_dec (ax - aone) 0) as [Hz|Hnz].
  - left. rewrite Hz. reflexivity.
  - right.
    pose proof (binary_normalize_shape (ax - aone) ez false Hnz) as Hshape.
    replace (ax - aone <? 0) with false in Hshape
      by (symmetry; apply Z.ltb_ge; lia).
    exists (Zdigits2 (ax - aone) + ez). split; [|exact Hshape].
    pose proof (Zdigits2_mono (ax - aone) ax ltac:(lia)). lia.
Qed.

End SubOne.


(** *** The product computed by the volume mapper *)

Lemma Prim2SF_big : Prim2SF float_big = SF_big.
Proof. vm_compute. reflexivity. Qed.

Lemma Prim2SF_minus_big : Prim2SF (- float_big) = SFopp SF_big.
Proof. vm_compute. reflexivity. Qed.

(** A valid number between [-2^1000] and [2^1000] is a zero or a finite
    number below [2^1001]. *)
Lemma range_finite x :
  valid_binary x = true ->
  SFleb (SFopp SF_big) x = true -> SFleb x SF_big = true ->
  finite_below 1001 x.
Proof.
  intros Hv Hlo Hhi. destruct x as [s|s| |s m e]; simpl.
  - exact I.
  - destruct s; vm_compute in Hlo, Hhi; discriminate.
  - vm_compute in Hlo. discriminate.
  - destruct (valid_digits s m e Hv) as [Hd _].
    assert (e <= 948); [|lia].
    unfold SFleb, SFcompare, SF_big, SFopp in Hlo, Hhi. simpl negb in Hlo.
    destruct s.
    + destruct (Z.compare_spec 948 e) as [Heq|Hlt|Hgt];
        first [lia|discriminate].
    + destruct (Z.compare_spec e 948) as [Heq|Hlt|Hgt];
        first [lia|discriminate].
Qed.

Lemma SF64mul_fifty_finite_gen b x :
  finite_below b x -> -1080 <= b -> b + 7 < emax ->
  finite_below (b + 7) (SF64mul x SF_fifty).
Proof.
  destruct x as [s|s| |s m e]; simpl finite_below at 1;
    intros Hb Hlow Hbe; try contradiction.
  - exact I.
  - destruct (SF64mul_fifty_shape s m e) as (mag & Hmag & Hshape).
    destruct (SF64mul (S754_finite s m e) SF_fifty) as [s'|s'| |s' m' e'];
      simpl in Hshape |- *; try tauto; unfold emax in *; lia.
Qed.

Lemma SF64sub_one_finite_gen b x :
  valid_binary x = true -> finite_below b x -> 1 <= b -> b + 1 < emax ->
  finite_below (b + 2) (SF64sub x SF_one).
Proof.
  intros Hv Hb Hb1 Hbe. destruct x as [s|s| |s m e]; simpl in Hb; try tauto.
  - simpl. change (Zpos (digits2_pos 4503599627370496)) with 53. lia.
  - apply sub_one_finite; assumption.
Qed.

Lemma SF64sub_one_not_nan x :
  valid_binary x = true -> x <> S754_nan -> SF64sub x SF_one <> S754_nan.
Proof.
  intros Hv Hx. destruct x as [s|s| |s m e]; try congruence;
    try (simpl; discriminate).
  rewrite sub_one_unfold.
  destruct (Z.eq_dec
              (cond_Zopp s (Zpos (fst (shl_align m e (Z.min e (-52))))) -
               Zpos (fst (shl_align 4503599627370496 (-52) (Z.min e (-52))))) 0)
    as [Hz|Hnz].
  - rewrite Hz. discriminate.
  - pose proof (binary_normalize_shape _ (Z.min e (-52)) false Hnz) as Hshape.
    intros Hnan. rewrite Hnan in Hshape. exact Hshape.
Qed.

Lemma SF64mul_fifty_not_nan x :
  x <> S754_nan -> SF64mul x SF_fifty <> S754_nan.
Proof.
  intros Hx. destruct x as [s|s| |s m e]; try congruence;
    try (simpl; discriminate).
  destruct (SF64mul_fifty_shape s m e) as (mag & _ & Hshape).
  intros Hnan. rewrite Hnan in Hshape. exact Hshape.
Qed.

(** The spec-level value that [volume_to_edge] rounds. *)
Lemma volume_product_spec (vol : float) :
  Prim2SF ((vol - 1) * 50)%float =
    SF64mul (SF64sub (Prim2SF vol) SF_one) SF_fifty.
Proof. rewrite mul_spec, sub_spec, Prim2SF_one, Prim2SF_fifty. reflexivity. Qed.

(** For an operand that is at least one the product is a zero or a finite
    number with the sign bit down. *)
Lemma product_from_above x :
  valid_binary x = true ->
  SFleb SF_one x = true -> SFleb x SF_big = true ->
  match SF64mul (SF64sub x SF_one) SF_fifty with
  | S754_zero _ => True
  | S754_finite s _ _ => s = false
  | _ => False
  end.
Proof.
  intros Hv H1 Hbig. destruct x as [s|s| |s m e].
  - vm_compute in H1. discriminate.
  - destruct s; vm_compute in H1, Hbig; discriminate.
  - vm_compute in H1. discriminate.
  - assert (s = false) as Hs.
    { destruct s; [vm_compute in H1; discriminate|reflexivity]. }
    assert (finite_below 1001 (S754_finite s m e)) as Hfin.
    { apply range_finite; [assumption| |assumption].
      rewrite Hs. reflexivity. }
    simpl in Hfin.
    destruct (sub_one_from_above s m e Hv Hs H1) as [->|(mag & Hmag & Hshape)].
    + exact I.
    + destruct (SF64sub (S754_finite s m e) SF_one) as [s1|s1| |s1 m1 e1];
        simpl in Hshape; try tauto; [exact I|lia|].
      destruct Hshape as (-> & Hm1 & _).
      destruct (SF64mul_fifty_shape false m1 e1) as (mag2 & Hmag2 & Hshape2).
      destruct (SF64mul (S754_finite false m1 e1) SF_fifty)
        as [s2|s2| |s2 m2 e2]; simpl in Hshape2; try tauto; lia.
Qed.

(** For an operand that is at most zero the product is a finite negative
    number of magnitude at least fifty. *)
Lemma product_from_below x :
  valid_binary x = true ->
  SFleb x (S754_zero false) = true -> SFleb (SFopp SF_big) x = true ->
  match SF64mul (SF64sub x SF_one) SF_fifty with
  | S754_finite s m e => s = true /\ at_least 50 (S754_finite s m e)
  | _ => False
  end.
Proof.
  intros Hv H0 Hbig. destruct x as [s|s| |s m e].
  - simpl. vm_compute. split; [reflexivity|discriminate].
  - destruct s; vm_compute in H0, Hbig; discriminate.
  - vm_compute in H0. discriminate.
  - assert (s = true) as Hs.
    { destruct s; [reflexivity|vm_compute in H0; discriminate]. }
    assert (finite_below 1001 (S754_finite s m e)) as Hfin.
    { apply range_finite; [assumption|assumption|].
      rewrite Hs. reflexivity. }
    simpl in Hfin.
    destruct (sub_one_negative s m e Hs) as (mag & Hmag & Hshape).
    destruct (SF64sub (S754_finite s m e) SF_one) as [s1|s1| |s1 m1 e1];
      simpl in Hshape; try tauto; try lia.
    destruct Hshape as (-> & Hm1 & _).
    assert (at_least 1 (S754_finite true m1 e1)) as Hone.
    { change 1 with (2 ^ 0). apply binade_at_least; lia. }
    pose proof (SF64mul_fifty_at_least true m1 e1 Hone) as H50.
    destruct (SF64mul_fifty_shape true m1 e1) as (mag2 & Hmag2 & Hshape2).
    destruct (SF64mul (S754_finite true m1 e1) SF_fifty)
      as [s2|s2| |s2 m2 e2]; simpl in Hshape2; try lia; tauto.
Qed.


(** *** Division of an integer by 75 *)

Lemma Zdigits2_lt_pow m k : 0 < m < 2 ^ k -> 0 <= k -> Zdigits2 m <= k.
Proof.
  intros [Hm Hlt] Hk. rewrite Zdigits2_log2 by assumption.
  pose proof (proj1 (Z.log2_lt_pow2 m k Hm) Hlt). lia.
Qed.

(** The quotient and exponent handed to the rounding function. *)
Lemma div75_core A :
  75 <= A ->
  let '(q, e', l) := SFdiv_core_binary prec emax A 0 75 0 in
  0 < q /\ e' <= 0 /\ 2 ^ (- e') <= q /\
  e' <= fexp prec emax (Zdigits2 q + e') /\
  Zdigits2 A - 7 <= Zdigits2 q + e' <= Zdigits2 A.
Proof.
  intros HA. unfold SFdiv_core_binary. cbv zeta.
  change (Zdigits2 75) with 7.
  set (d1 := Zdigits2 A).
  assert (7 <= d1) as Hd1.
  { unfold d1. change 7 with (6 + 1).
    apply Zdigits2_pow_le; [lia|]. change (2 ^ 6) with 64. lia. }
  set (e' := Z.min (fexp prec emax (d1 + 0 - (7 + 0))) (0 - 0)).
  set (sh := 0 - 0 - e').
  assert (0 <= sh /\ e' = - sh /\ e' <= 0) as (Hsh & He' & He0)
    by (unfold sh, e'; lia).
  assert (match sh with
          | Zpos _ => Z.shiftl A sh
          | Z0 => A
          | Zneg _ => 0
          end = Z.shiftl A sh) as ->.
  { destruct sh as [|p|p] eqn:Hs; [reflexivity|reflexivity|lia]. }
  assert (0 < 2 ^ sh) as Hpow by (apply Z.pow_pos_nonneg; lia).
  assert (Z.shiftl A sh = A * 2 ^ sh) as Hm' by (apply Z.shiftl_mul_pow2; lia).
  assert (Zdigits2 (Z.shiftl A sh) = d1 + sh) as Hdm
    by (apply Zdigits2_shiftl; lia).
  pose proof (Z_div_mod (Z.shiftl A sh) 75 ltac:(lia)) as Hdiv.
  destruct (Z.div_eucl (Z.shiftl A sh) 75) as [q r].
  destruct Hdiv as [Heq Hr].
  assert (2 ^ sh <= q) as Hq by nia.
  assert (0 < q) as Hq0 by lia.
  assert (Zdigits2 q <= d1 + sh) as Hup.
  { rewrite <- Hdm. apply Zdigits2_mono. nia. }
  assert (d1 + sh - 7 <= Zdigits2 q) as Hlow.
  { rewrite <- Hdm. destruct (Z.eq_dec q 1) as [->|Hq1].
    - assert (Zdigits2 (Z.shiftl A sh) <= 8); [|simpl; lia].
      apply Zdigits2_lt_pow; [|lia]. change (2 ^ 8) with 256. lia.
    - assert (Zdigits2 (Z.shiftl A sh) <= Zdigits2 (Z.shiftl q 7)) as Hle.
      { apply Zdigits2_mono. rewrite (Z.shiftl_mul_pow2 q 7) by lia.
        change (2 ^ 7) with 128. lia. }
      rewrite (Zdigits2_shiftl q 7) in Hle by lia. lia. }
  split; [exact Hq0|]. split; [exact He0|].
  split; [rewrite He'; replace (- - sh) with sh by lia; exact Hq|].
  split; [|lia].
  unfold e', fexp, SpecFloat.emin, prec, emax in *. lia.
Qed.

(** The quotient of an integer of magnitude from 75 to [2^1001] by 75 is a
    finite float of the sign of the integer and of magnitude at least
    one. *)
Lemma int_truediv_large a :
  75 <= Z.abs a < 2 ^ 1001 ->
  exists quot m e,
    int_truediv a 75 = Ok quot /\
    Prim2SF quot = S754_finite (a <? 0) m e /\
    at_least 1 (S754_finite (a <? 0) m e) /\
    Zpos (digits2_pos m) + e <= 1002.
Proof.
  intros [Hlo Hhi].
  assert (int_truediv a 75 =
          let '(q, e, l) := SFdiv_core_binary prec emax (Z.abs a) 0 75 0 in
          match binary_round_aux prec emax (a <? 0) q e l with
          | S754_infinity _ => Raise OverflowError
          | r => Ok (SF2Prim r)
          end) as ->.
  { unfold int_truediv. destruct a as [|p|p]; [lia| |];
      rewrite Bool.xorb_false_r; reflexivity. }
  pose proof (div75_core (Z.abs a) Hlo) as Hcore.
  assert (Zdigits2 (Z.abs a) <= 1001) as Hd
    by (apply Zdigits2_lt_pow; lia).
  destruct (SFdiv_core_binary prec emax (Z.abs a) 0 75 0) as [[q e'] l].
  destruct Hcore as (Hq & He0 & Hpow & Hpre & Hmag).
  pose proof (binary_round_aux_shape (a <? 0) q e' l Hq Hpre) as Hshape.
  pose proof (binary_round_aux_valid (a <? 0) q e' l Hq Hpre) as Hvalid.
  pose proof (binary_round_aux_at_least 1 (a <? 0) q e' l
                ltac:(change (2 ^ 53) with 9007199254740992; lia) Hq Hpre He0
                ltac:(lia)) as Hone.
  assert (0 <= Zdigits2 (Z.abs a) - 7) as Hnn.
  { assert (7 <= Zdigits2 (Z.abs a)); [|lia]. change 7 with (6 + 1).
    apply Zdigits2_pow_le; [lia|]. change (2 ^ 6) with 64. lia. }
  destruct (binary_round_aux prec emax (a <? 0) q e' l) as [s|s| |s m e];
    simpl in Hshape; try tauto; try lia.
  destruct Hshape as (-> & Hm & _).
  exists (SF2Prim (S754_finite (a <? 0) m e)), m, e.
  split; [reflexivity|]. split; [apply Prim2SF_SF2Prim; exact Hvalid|].
  split; [exact Hone|lia].
Qed.

(** Beyond [2^1032] the quotient does not fit a float. *)
Lemma int_truediv_huge a :
  2 ^ 1032 <= Z.abs a -> int_truediv a 75 = Raise OverflowError.
Proof.
  intros Hhuge.
  assert (0 < 2 ^ 1032) as Hp by (apply Z.pow_pos_nonneg; lia).
  assert (75 <= Z.abs a) as Hlo.
  { assert (2 ^ 7 <= 2 ^ 1032) by (apply Z.pow_le_mono_r; lia).
    change (2 ^ 7) with 128 in *. lia. }
  assert (int_truediv a 75 =
          let '(q, e, l) := SFdiv_core_binary prec emax (Z.abs a) 0 75 0 in
          match binary_round_aux prec emax (a <? 0) q e l with
          | S754_infinity _ => Raise OverflowError
          | r => Ok (SF2Prim r)
          end) as ->.
  { unfold int_truediv. destruct a as [|p|p]; [simpl in Hlo; lia| |];
      rewrite Bool.xorb_false_r; reflexivity. }
  pose proof (div75_core (Z.abs a) Hlo) as Hcore.
  pose proof (Zdigits2_pow_le (Z.abs a) 1032 ltac:(lia) Hhuge) as Hd.
  destruct (SFdiv_core_binary prec emax (Z.abs a) 0 75 0) as [[q e'] l].
  destruct Hcore as (Hq & He0 & Hpow & Hpre & Hmag).
  pose proof (binary_round_aux_shape (a <? 0) q e' l Hq Hpre) as Hshape.
  destruct (binary_round_aux prec emax (a <? 0) q e' l) as [s|s| |s m e];
    simpl in Hshape; first [reflexivity|tauto|lia].
Qed.

End Binary64Bounds.
(** ** Further properties of the parameter mapper *)

Section MapperMore.

Import Binary64Spec Binary64More Binary64 Binary64Bounds.

Lemma Prim2SF_nan (x : float) : Prim2SF x = S754_nan <-> is_nan x = true.
Proof.
  unfold Prim2SF. destruct (is_nan x); [split; reflexivity|].
  split; [|discriminate].
  destruct (is_zero x); [discriminate|].
  destruct (is_infinity x); [discriminate|].
  destruct (Z.frexp x) as [r ex].
  destruct (shr_fexp prec emax _ _ _) as [sh e'].
  destruct (shr_m sh); discriminate.
Qed.

Lemma clamp_nonneg (val : Z) : 0 <= val -> clamp (-50) 0 val = 0.
Proof. unfold clamp. lia. Qed.

Lemma clamp_low (hi val : Z) : 0 <= hi -> val <= -50 -> clamp (-50) hi val = -50.
Proof. unfold clamp. lia. Qed.

Lemma clamp_high (val : Z) : 50 <= val -> clamp (-50) 50 val = 50.
Proof. unfold clamp. lia. Qed.

Lemma volume_to_edge_above (vol : float) :
  (1 <=? vol)%float = true -> (vol <=? float_big)%float = true ->
  volume_to_edge vol = Ok (u "+0%").
Proof.
  intros H1 Hbig. rewrite leb_spec in H1, Hbig.
  rewrite Prim2SF_one in H1. rewrite Prim2SF_big in Hbig.
  pose proof (product_from_above (Prim2SF vol) (Prim2SF_valid vol) H1 Hbig)
    as Hprod.
  unfold volume_to_edge, py_round. rewrite volume_product_spec.
  destruct (SF64mul (SF64sub (Prim2SF vol) SF_one) SF_fifty)
    as [s|s| |s m e]; try contradiction; cbn [res_bind].
  - reflexivity.
  - subst s. cbn [cond_Zopp].
    rewrite clamp_nonneg by apply round_half_even_nonneg. reflexivity.
Qed.

Lemma volume_to_edge_below (vol : float) :
  (vol <=? 0)%float = true -> (- float_big <=? vol)%float = true ->
  volume_to_edge vol = Ok (u "-50%").
Proof.
  intros H0 Hbig. rewrite leb_spec in H0, Hbig.
  rewrite Prim2SF_zero in H0. rewrite Prim2SF_minus_big in Hbig.
  pose proof (product_from_below (Prim2SF vol) (Prim2SF_valid vol) H0 Hbig)
    as Hprod.
  unfold volume_to_edge, py_round. rewrite volume_product_spec.
  destruct (SF64mul (SF64sub (Prim2SF vol) SF_one) SF_fifty)
    as [s|s| |s m e]; try contradiction; cbn [res_bind].
  destruct Hprod as [-> H50]. cbn [cond_Zopp].
  pose proof (round_half_even_at_least 50 true m e H50) as Hr.
  rewrite clamp_low by lia. reflexivity.
Qed.

Lemma pct_to_edge_rate_large (pct : Z) :
  75 <= Z.abs (pct - 175) < 2 ^ 1001 ->
  pct_to_edge_rate pct =
    Ok (if pct - 175 <? 0 then u "-50%" else u "+50%").
Proof.
  intros Ha. unfold pct_to_edge_rate.
  destruct (int_truediv_large (pct - 175) Ha) as (quot & m & e & -> & Hq & Hone & Hd).
  cbn [res_bind]. unfold py_round.
  rewrite mul_spec, Hq, Prim2SF_fifty.
  pose proof (SF64mul_fifty_at_least _ m e Hone) as H50.
  destruct (SF64mul_fifty_shape (pct - 175 <? 0) m e) as (mag & Hmag & Hshape).
  destruct (SF64mul (S754_finite (pct - 175 <? 0) m e) SF_fifty)
    as [s'|s'| |s' m' e']; simpl in Hshape; try contradiction; try lia.
  destruct Hshape as (-> & _). cbn [res_bind].
  pose proof (round_half_even_at_least 50 _ m' e' H50) as Hr.
  destruct (pct - 175 <? 0); cbn [cond_Zopp].
  - rewrite clamp_low by lia. reflexivity.
  - rewrite clamp_high by lia. reflexivity.
Qed.

Lemma big_pos : 2 ^ 1001 = 2 * big /\ 175 < big.
Proof.
  unfold big. split.
  - change 1001 with (1 + 1000). rewrite Z.pow_add_r by lia. reflexivity.
  - assert (2 ^ 8 <= 2 ^ 1000) by (apply Z.pow_le_mono_r; lia).
    change (2 ^ 8) with 256 in *. lia.
Qed.

Lemma rate_percent_high (pct : Z) : 250 <= pct -> rate_percent pct = 50.
Proof.
  intros Hp. unfold rate_percent, round_ratio, clamp. cbv zeta.
  destruct (Z.compare_spec (2 * (((pct - 175) * 50) mod 75)) 75);
    try destruct (Z.even _); Z.div_mod_to_equations; lia.
Qed.

Lemma rate_percent_low (pct : Z) : pct <= 100 -> rate_percent pct = -50.
Proof.
  intros Hp. unfold rate_percent, round_ratio, clamp. cbv zeta.
  destruct (Z.compare_spec (2 * (((pct - 175) * 50) mod 75)) 75);
    try destruct (Z.even _); Z.div_mod_to_equations; lia.
Qed.

Lemma rate_percent_mono (p1 p2 : Z) :
  p1 <= p2 -> rate_percent p1 <= rate_percent p2.
Proof.
  intros Hp. unfold rate_percent, round_ratio, clamp. cbv zeta.
  destruct (Z.compare_spec (2 * (((p1 - 175) * 50) mod 75)) 75);
    destruct (Z.compare_spec (2 * (((p2 - 175) * 50) mod 75)) 75);
    try lia; Z.div_mod_to_equations; lia.
Qed.

(** On every integer of magnitude below [2^1000] the mapper returns the
    rate of exact arithmetic. *)
Lemma pct_to_edge_rate_wide (pct : Z) :
  - big < pct < big ->
  pct_to_edge_rate pct = Ok (format_plus_d (rate_percent pct) ++ u "%").
Proof.
  intros Hr. destruct big_pos as [Hb2 Hb175].
  destruct (Z.le_gt_cases 250 pct) as [Hhi|Hlt].
  - rewrite pct_to_edge_rate_large by lia.
    rewrite rate_percent_high by lia.
    replace (pct - 175 <? 0) with false by (symmetry; apply Z.ltb_ge; lia).
    reflexivity.
  - destruct (Z.le_gt_cases pct 100) as [Hlo|Hgt].
    + rewrite pct_to_edge_rate_large by lia.
      rewrite rate_percent_low by lia.
      replace (pct - 175 <? 0) with true by (symmetry; apply Z.ltb_lt; lia).
      reflexivity.
    + pose proof (forallb_seqZ rate_agrees 100 151 pct rate_agrees_all
                    ltac:(lia)) as H.
      unfold rate_agrees in H.
      destruct (pct_to_edge_rate pct) as [r|e]; [|discriminate].
      apply andb_prop in H. destruct H as [H1 _].
      apply bool_decide_eq_true in H1. congruence.
Qed.

End MapperMore.

(** X16: the volume mapper returns for every float from [-2^1000] to
    [2^1000], not only on the slider range: the product it rounds stays
    finite, and the result is a signed percentage within [-50, 0]. *)
Theorem volume_to_edge_total (vol : float) :
  (- Binary64More.float_big <=? vol)%float = true ->
  (vol <=? Binary64More.float_big)%float = true ->
  exists s, volume_to_edge vol = Ok s /\ percent_within (-50) 0 s.
Proof.
  intros Hlo Hhi. rewrite leb_spec in Hlo, Hhi.
  rewrite Binary64Bounds.Prim2SF_minus_big in Hlo.
  rewrite Binary64Bounds.Prim2SF_big in Hhi.
  pose proof (Binary64Bounds.range_finite _ (Prim2SF_valid vol) Hlo Hhi) as Hfin.
  apply (Binary64Bounds.SF64sub_one_finite_gen 1001 _ (Prim2SF_valid vol))
    in Hfin; [|lia|unfold emax; lia].
  apply (Binary64Bounds.SF64mul_fifty_finite_gen (1001 + 2)) in Hfin;
    [|lia|unfold emax; lia].
  assert (exists s, volume_to_edge vol = Ok s) as [s Hs].
  { unfold volume_to_edge, py_round.
    rewrite Binary64Bounds.volume_product_spec.
    destruct (SF64mul _ _); simpl in Hfin; try contradiction;
      cbn [res_bind]; eauto. }
  exists s. split; [exact Hs|]. eapply volume_to_edge_within, Hs.
Qed.

Lemma volume_to_edge_total_witness :
  (- Binary64More.float_big <=? -3.5)%float = true /\
  (-3.5 <=? Binary64More.float_big)%float = true /\
  exists s, volume_to_edge (-3.5) = Ok s /\ percent_within (-50) 0 s.
Proof.
  split; [reflexivity|]. split; [reflexivity|].
  apply (volume_to_edge_total (-3.5)); reflexivity.
Defined.

(** X17: volumes outside the slider range are absorbed by the clamp: every
    float from 1.0 up to [2^1000] gives +0%, and every float from 0.0 down
    to [-2^1000] gives -50%. *)
Theorem volume_to_edge_saturates (vol : float) :
  (- Binary64More.float_big <=? vol)%float = true ->
  (vol <=? Binary64More.float_big)%float = true ->
  ((1 <=? vol)%float = true -> volume_to_edge vol = Ok (u "+0%")) /\
  ((vol <=? 0)%float = true -> volume_to_edge vol = Ok (u "-50%")).
Proof.
  intros Hlo Hhi. split; intros H.
  - apply volume_to_edge_above; assumption.
  - apply volume_to_edge_below; assumption.
Qed.

Lemma volume_to_edge_saturates_witness :
  volume_to_edge 7.25 = Ok (u "+0%") /\ volume_to_edge (-0.125) = Ok (u "-50%").
Proof.
  split.
  - apply (volume_to_edge_saturates 7.25); reflexivity.
  - apply (volume_to_edge_saturates (-0.125)); reflexivity.
Defined.

(** X18: the volume mapper raises ValueError exactly when its argument is a
    NaN, and it raises OverflowError on both infinities. *)
Theorem volume_to_edge_raises (vol : float) :
  (volume_to_edge vol = Raise ValueError <-> is_nan vol = true) /\
  volume_to_edge infinity = Raise OverflowError /\
  volume_to_edge neg_infinity = Raise OverflowError.
Proof.
  split; [|split; vm_compute; reflexivity].
  rewrite <- Prim2SF_nan. unfold volume_to_edge, py_round.
  rewrite Binary64Bounds.volume_product_spec. split.
  - intros Hraise.
    assert (Prim2SF vol = S754_nan \/ Prim2SF vol <> S754_nan) as [Hn|Hn]
      by (destruct (Prim2SF vol); [right; discriminate|right; discriminate
                                  |left; reflexivity|right; discriminate]).
    { exact Hn. }
    exfalso.
    pose proof (Binary64Bounds.SF64mul_fifty_not_nan _
                  (Binary64Bounds.SF64sub_one_not_nan _ (Prim2SF_valid vol) Hn))
      as Hnn.
    destruct (SF64mul _ _); cbn [res_bind] in Hraise; congruence.
  - intros ->. reflexivity.
Qed.

(** X19: on every integer of magnitude below [2^1000], not only on the
    slider range, the rate mapper returns the signed percentage of the
    exactly rounded [(pct - 175) * 50 / 75], clamped to [-50, 50]: the
    binary64 division and product never change the result. *)
Theorem pct_to_edge_rate_exact (pct : Z) :
  - Binary64More.big < pct < Binary64More.big ->
  pct_to_edge_rate pct = Ok (format_plus_d (rate_percent pct) ++ u "%") /\
  signed_pct_value (format_plus_d (rate_percent pct) ++ u "%") =
    Some (rate_percent pct) /\
  -50 <= rate_percent pct <= 50.
Proof.
  intros Hr. split; [apply pct_to_edge_rate_wide; exact Hr|].
  pose proof (clamp_bounds (-50) 50
                (round_ratio ((pct - 175) * 50) 75) ltac:(lia)) as Hc.
  fold (rate_percent pct) in Hc.
  split; [apply signed_pct_roundtrip; exact Hc|exact Hc].
Qed.

Lemma pct_to_edge_rate_exact_witness :
  - Binary64More.big < 1000000 < Binary64More.big /\
  pct_to_edge_rate 1000000 = Ok (format_plus_d (rate_percent 1000000) ++ u "%").
Proof.
  assert (- Binary64More.big < 1000000 < Binary64More.big) as Hr
    by (vm_compute; split; reflexivity).
  split; [exact Hr|]. exact (proj1 (pct_to_edge_rate_exact 1000000 Hr)).
Defined.

(** X20: rates outside the slider range are absorbed by the clamp: every
    integer from 250 up to [2^1000] gives +50%, and every integer from 100
    down to [-2^1000] gives -50%. *)
Theorem pct_to_edge_rate_saturates (pct : Z) :
  - Binary64More.big < pct < Binary64More.big ->
  (250 <= pct -> pct_to_edge_rate pct = Ok (u "+50%")) /\
  (pct <= 100 -> pct_to_edge_rate pct = Ok (u "-50%")).
Proof.
  intros Hr. destruct big_pos as [Hb2 Hb175]. split; intros Hp.
  - rewrite pct_to_edge_rate_large by lia.
    replace (pct - 175 <? 0) with false by (symmetry; apply Z.ltb_ge; lia).
    reflexivity.
  - rewrite pct_to_edge_rate_large by lia.
    replace (pct - 175 <? 0) with true by (symmetry; apply Z.ltb_lt; lia).
    reflexivity.
Qed.

Lemma pct_to_edge_rate_saturates_witness :
  pct_to_edge_rate 400 = Ok (u "+50%") /\ pct_to_edge_rate (-3) = Ok (u "-50%").
Proof.
  split.
  - apply (pct_to_edge_rate_saturates 400); [vm_compute; split; reflexivity|lia].
  - apply (pct_to_edge_rate_saturates (-3)); [vm_compute; split; reflexivity|lia].
Defined.

(** X21: the rate never decreases when the slider value grows: of two
    integers of magnitude below [2^1000], the larger is mapped to a
    percentage that is at least that of the smaller. *)
Theorem pct_to_edge_rate_monotone (p1 p2 : Z) :
  - Binary64More.big < p1 -> p1 <= p2 -> p2 < Binary64More.big ->
  exists n1 n2,
    pct_to_edge_rate p1 = Ok (format_plus_d n1 ++ u "%") /\
    pct_to_edge_rate p2 = Ok (format_plus_d n2 ++ u "%") /\
    signed_pct_value (format_plus_d n1 ++ u "%") = Some n1 /\
    signed_pct_value (format_plus_d n2 ++ u "%") = Some n2 /\
    n1 <= n2.
Proof.
  intros H1 H12 H2. exists (rate_percent p1), (rate_percent p2).
  pose proof (clamp_bounds (-50) 50
                (round_ratio ((p1 - 175) * 50) 75) ltac:(lia)) as Hc1.
  pose proof (clamp_bounds (-50) 50
                (round_ratio ((p2 - 175) * 50) 75) ltac:(lia)) as Hc2.
  fold (rate_percent p1) in Hc1. fold (rate_percent p2) in Hc2.
  split; [apply pct_to_edge_rate_wide; lia|].
  split; [apply pct_to_edge_rate_wide; lia|].
  split; [apply signed_pct_roundtrip; exact Hc1|].
  split; [apply signed_pct_roundtrip; exact Hc2|].
  apply rate_percent_mono; exact H12.
Qed.

Lemma pct_to_edge_rate_monotone_witness :
  exists n1 n2,
    pct_to_edge_rate 120 = Ok (format_plus_d n1 ++ u "%") /\
    pct_to_edge_rate 205 = Ok (format_plus_d n2 ++ u "%") /\
    signed_pct_value (format_plus_d n1 ++ u "%") = Some n1 /\
    signed_pct_value (format_plus_d n2 ++ u "%") = Some n2 /\
    n1 <= n2.
Proof.
  apply (pct_to_edge_rate_monotone 120 205);
    [vm_compute; reflexivity|lia|vm_compute; reflexivity].
Defined.

(** X22: the clamp does not absorb every integer: from [2^1032 + 175] on,
    the quotient by 75 does not fit a float and the rate mapper raises
    OverflowError. *)
Theorem pct_to_edge_rate_overflow (pct : Z) :
  2 ^ 1032 + 175 <= pct -> pct_to_edge_rate pct = Raise OverflowError.
Proof.
  intros Hp. unfold pct_to_edge_rate.
  rewrite Binary64Bounds.int_truediv_huge; [reflexivity|].
  assert (0 < 2 ^ 1032) by (apply Z.pow_pos_nonneg; lia). lia.
Qed.

Lemma pct_to_edge_rate_overflow_witness :
  2 ^ 1032 + 175 <= 2 ^ 1100 /\ pct_to_edge_rate (2 ^ 1100) = Raise OverflowError.
Proof.
  assert (2 ^ 1032 + 175 <= 2 ^ 1100) as Hle by (vm_compute; discriminate).
  split; [exact Hle|]. exact (pct_to_edge_rate_overflow (2 ^ 1100) Hle).
Defined.

